(** * copy-to-clipboard: the collection engine, the pattern store and the
      copy command, embedded from [copier.py] and [config.py].

    Python values are modelled as follows.
    - [str] is a sequence of Unicode code points, [list N]; [len] is the
      length of that list and [+] is [++].
    - [int] is [Z]; an optional limit ([None] or an int) is [option Z].
    - [set()] of strings is a [gset]; a Python list is a [list].
    - [print(..., file=sys.stderr)] appends to a log of structured messages.
    - [pyperclip.copy] and the prints of [perform_copy] are a list of
      effects.
    Library calls the source makes ([os], [pathlib], [fnmatch], [pathspec],
    [tiktoken]) are fields of the classes [Platform] and [Tools], taken to
    return on every argument; the theorems hold for every instance. *)

From Stdlib Require Import ZArith NArith Lia.
From Stdlib.Strings Require Import Ascii Byte String.
From stdpp Require Import base decidable option list gmap sets.

Local Open Scope Z_scope.
Local Open Scope list_scope.

Set Default Proof Using "Type".

(* ===================================================================== *)
(** ** Python strings *)

Abbreviation str := (list N).

(** A string literal of the source, as code points. *)
Definition lit (s : String.string) : str :=
  List.map N_of_ascii (String.list_ascii_of_string s).

Definition len (s : str) : Z := Z.of_nat (length s).

(** [s.startswith(p)] *)
Fixpoint startswith (p s : str) : bool :=
  match p, s with
  | [], _ => true
  | _ :: _, [] => false
  | a :: p', b :: s' => if decide (a = b) then startswith p' s' else false
  end.

(** [s.replace(a, b)] for one-character [a] and [b], the only use in the
    source ([os.sep] by ["/"]). *)
Definition replace (a b : N) (s : str) : str :=
  List.map (fun c => if decide (c = a) then b else c) s.

(** [s.count("\n")] *)
Definition count_newlines (s : str) : Z :=
  Z.of_nat (length (List.filter (fun c => bool_decide (c = 10%N)) s)).

(** [str.isspace] on one code point: the characters [str.strip()] removes. *)
Definition isspace (c : N) : bool :=
  ((9 <=? c) && (c <=? 13) || (28 <=? c) && (c <=? 32)
   || (c =? 133) || (c =? 160) || (c =? 5760)
   || (8192 <=? c) && (c <=? 8202) || (c =? 8232) || (c =? 8233)
   || (c =? 8239) || (c =? 8287) || (c =? 12288))%N.

Fixpoint lstrip (s : str) : str :=
  match s with
  | c :: s' => if isspace c then lstrip s' else s
  | [] => []
  end.

(** [s.strip()] *)
Definition strip (s : str) : str := rev (lstrip (rev (lstrip s))).

(* ===================================================================== *)
(** ** Reading a file as text

    [open(file_path, "r", encoding="utf-8", errors="ignore")] followed by
    [f.read()]: the bytes of the file go through Python's UTF-8 decoder with
    the error handler named by [errors], then through universal-newline
    translation (the default of text mode). *)

Module Utf8.

Inductive errors := Strict | Ignore | Replace.

Definition is_continuation (b : N) : bool := ((128 <=? b) && (b <? 192))%N.

(** What the decoder does with an undecodable run once the rest [k] of the
    input has been decoded: ["strict"] raises, ["ignore"] leaves the run
    out, ["replace"] puts U+FFFD in its place. *)
Definition on_error (e : errors) (k : option str) : option str :=
  match e with
  | Strict => None
  | Ignore => k
  | Replace => cons 65533%N <$> k
  end.

Definition emit (c : N) (k : option str) : option str := cons c <$> k.

(** Second-byte restrictions of three- and four-byte forms (no overlong
    forms, no surrogates, nothing above U+10FFFF). *)
Definition bad_second3 (b0 b1 : N) : bool :=
  (if b1 <? 160 then b0 =? 224 else b0 =? 237)%N.
Definition bad_second4 (b0 b1 : N) : bool :=
  (if b1 <? 144 then b0 =? 240 else b0 =? 244)%N.

Definition cp2 (b0 b1 : N) : N := ((b0 - 192) * 64 + (b1 - 128))%N.
Definition cp3 (b0 b1 b2 : N) : N :=
  ((b0 - 224) * 4096 + (b1 - 128) * 64 + (b2 - 128))%N.
Definition cp4 (b0 b1 b2 b3 : N) : N :=
  ((b0 - 240) * 262144 + (b1 - 128) * 4096 + (b2 - 128) * 64 + (b3 - 128))%N.

(** [bytes.decode("utf-8", errors)]; [None] is [UnicodeDecodeError]. An
    undecodable run is the lead byte alone, or the longest prefix of a
    multi-byte form that is still well formed, or a truncated form at the
    end of the data. *)
Fixpoint decode (e : errors) (bs : list byte) : option str :=
  match bs with
  | [] => Some []
  | c0 :: r0 =>
    let b0 := Byte.to_N c0 in
    if (b0 <? 128)%N then emit b0 (decode e r0)
    else if (b0 <? 194)%N then on_error e (decode e r0)
    else if (b0 <? 224)%N then
      match r0 with
      | [] => on_error e (Some [])
      | c1 :: r1 =>
        let b1 := Byte.to_N c1 in
        if is_continuation b1 then emit (cp2 b0 b1) (decode e r1)
        else on_error e (decode e r0)
      end
    else if (b0 <? 240)%N then
      match r0 with
      | [] => on_error e (Some [])
      | c1 :: r1 =>
        let b1 := Byte.to_N c1 in
        if negb (is_continuation b1) || bad_second3 b0 b1
        then on_error e (decode e r0)
        else
          match r1 with
          | [] => on_error e (Some [])
          | c2 :: r2 =>
            let b2 := Byte.to_N c2 in
            if is_continuation b2 then emit (cp3 b0 b1 b2) (decode e r2)
            else on_error e (decode e r1)
          end
      end
    else if (b0 <? 245)%N then
      match r0 with
      | [] => on_error e (Some [])
      | c1 :: r1 =>
        let b1 := Byte.to_N c1 in
        if negb (is_continuation b1) || bad_second4 b0 b1
        then on_error e (decode e r0)
        else
          match r1 with
          | [] => on_error e (Some [])
          | c2 :: r2 =>
            let b2 := Byte.to_N c2 in
            if negb (is_continuation b2) then on_error e (decode e r1)
            else
              match r2 with
              | [] => on_error e (Some [])
              | c3 :: r3 =>
                let b3 := Byte.to_N c3 in
                if is_continuation b3
                then emit (cp4 b0 b1 b2 b3) (decode e r3)
                else on_error e (decode e r2)
              end
          end
      end
    else on_error e (decode e r0)
  end.

(** Universal newlines: ["\r\n"] and a lone ["\r"] are read as ["\n"]. *)
Fixpoint universal_newlines (s : str) : str :=
  match s with
  | [] => []
  | c :: s' =>
    if decide (c = 13%N) then
      match s' with
      | d :: s'' =>
        if decide (d = 10%N) then 10%N :: universal_newlines s''
        else 10%N :: universal_newlines s'
      | [] => [10%N]
      end
    else c :: universal_newlines s'
  end.

(** The text [f.read()] returns for a file holding [bs], as the source
    opens it. *)
Definition read_text (bs : list byte) : option str :=
  universal_newlines <$> decode Ignore bs.

(** The same read with the ["replace"] handler, for comparison. *)
Definition read_text_replacing (bs : list byte) : option str :=
  universal_newlines <$> decode Replace bs.

(** *** What dropping undecodable bytes means

    A reference reading laid out from the UTF-8 standard, independent of
    the decoder above, which is compared with it. *)

(** Whether [c] is a Unicode scalar value: a code point up to U+10FFFF
    that is not a surrogate. *)
Definition scalar (c : N) : bool :=
  ((c <? 55296) || (57343 <? c) && (c <? 1114112))%N.

(** The UTF-8 form of a code point, as the standard lays it out: the
    values of its one to four bytes. *)
Definition encode (c : N) : list N :=
  (if c <? 128 then [c]
   else if c <? 2048 then [192 + c / 64; 128 + c mod 64]
   else if c <? 65536 then
     [224 + c / 4096; 128 + c / 64 mod 64; 128 + c mod 64]
   else [240 + c / 262144; 128 + c / 4096 mod 64; 128 + c / 64 mod 64;
         128 + c mod 64])%N.

(** The bytes begin with the UTF-8 form of a scalar value. *)
Definition starts_char (l : list N) : Prop :=
  ∃ c, scalar c = true ∧ encode c `prefix_of` l.

(** Reading bytes from left to right with the undecodable ones left out:
    where the UTF-8 form of a scalar value begins, that character is read and
    its bytes are passed; where none begins, one byte is dropped. *)
Inductive reads_dropping : list N → str → Prop :=
| reads_end : reads_dropping [] []
| reads_char c rest s :
    scalar c = true → reads_dropping rest s →
    reads_dropping (encode c ++ rest) (c :: s)
| reads_drop b rest s :
    ¬ starts_char (b :: rest) → reads_dropping rest s →
    reads_dropping (b :: rest) s.

End Utf8.

(* ===================================================================== *)
(** ** The outside world *)

Arguments lit s%_string.

Definition slash : N := 47%N.
Definition nl : str := [10%N].

(** What [os.walk] finds below a directory: the sub-directories and the
    other entries, by name, in the order [os.scandir] lists them. *)
Local Unset Elimination Schemes.
Inductive tree := Node (dirs : list (str * tree)) (files : list str).
Local Set Elimination Schemes.

(** A tokenizer: [encoding.encode(text)]. *)
Definition encoding := str -> list N.

(** [os], [pathlib] and the file system of one run. *)
Class Platform := {
  os_sep : N;
  os_path_join : str -> str -> str;
  (** [os.path.relpath(path, start)] *)
  os_path_relpath : str -> str -> str;
  (** [Path.cwd()] *)
  Path_cwd : str;
  (** what [os.walk(Path.cwd())] enumerates *)
  cwd_tree : tree;
  (** [str(Path(p).resolve())] *)
  Path_resolve : str -> str;
  (** [Path(p).as_posix()] *)
  Path_as_posix : str -> str;
  Path_exists : str -> bool;
  Path_is_file : str -> bool;
  (** the bytes [open(p, "r")] reads; [None] when opening or reading
      raises *)
  file_bytes : str -> option (list byte);
  (** [open(p, "r", encoding="utf-8").readlines()]; [None] when it raises *)
  read_lines : str -> option (list str);
}.

(** [fnmatch], [pathspec] and [tiktoken]. *)
Class Tools := {
  fnmatch : str -> str -> bool;
  (** [pathspec.PathSpec.from_lines("gitwildmatch", lines).match_file] *)
  gitwildmatch : list str -> str -> bool;
  (** [tiktoken.encoding_for_model]; [None] is [KeyError] *)
  encoding_for_model : str -> option encoding;
  (** [tiktoken.get_encoding("cl100k_base")] *)
  cl100k_base : encoding;
}.

(* ===================================================================== *)
(** ** copier.py *)

(** Messages printed to [sys.stderr] during collection, by what they say. *)
Inductive message :=
| InfoSkipDir (rel_dir_path : str)
| InfoIgnored (rel : str)
| FailedRead (rel : str)
| InfoCharLimit (rel : str)
| InfoTokenLimit (rel : str)
| WarnMissing (rel : str).

(** Proof instrumentation, not a variable of the source: for every file that
    reached the budget checks, the branch that was taken, with the path that
    was opened, the label, the text read and, for a skip, the running total
    the limit was compared with. *)
Inductive outcome :=
| Appended (file_path rel content : str)
| OverChars (file_path rel content : str) (chars_before : Z)
| OverTokens (file_path rel content : str) (tokens_before : Z).

(** The local variables of [collect_file_contents]. *)
Record state := {
  output : str;
  total_chars_copied : Z;
  total_tokens_copied : Z;
  total_files_added : Z;
  total_lines_added : Z;
  total_files_skipped : Z;
  total_lines_skipped : Z;
  skipped_files : list str;
  included_files : gset str;
  stderr : list message;
  history : list outcome;
}.

Record summary := {
  files_added : Z;
  chars_copied : Z;
  tokens_copied : Z;
  lines_added : Z;
  files_skipped : Z;
  lines_skipped : Z;
  skipped : list str;
}.

Definition code_sample_open : str := lit "<code-sample>" ++ nl.
Definition code_sample_close : str := lit "</code-sample>".

Definition initial : state :=
  {| output := code_sample_open;
     total_chars_copied := 0; total_tokens_copied := 0;
     total_files_added := 0; total_lines_added := 0;
     total_files_skipped := 0; total_lines_skipped := 0;
     skipped_files := []; included_files := ∅;
     stderr := []; history := [] |}.

Definition print_stderr (m : message) (st : state) : state :=
  {| output := output st;
     total_chars_copied := total_chars_copied st;
     total_tokens_copied := total_tokens_copied st;
     total_files_added := total_files_added st;
     total_lines_added := total_lines_added st;
     total_files_skipped := total_files_skipped st;
     total_lines_skipped := total_lines_skipped st;
     skipped_files := skipped_files st;
     included_files := included_files st;
     stderr := stderr st ++ [m];
     history := history st |}.

(** The body of either "would exceed ... limit" branch. *)
Definition record_skip (m : message) (o : outcome) (rel content : str)
    (st : state) : state :=
  {| output := output st;
     total_chars_copied := total_chars_copied st;
     total_tokens_copied := total_tokens_copied st;
     total_files_added := total_files_added st;
     total_lines_added := total_lines_added st;
     total_files_skipped := total_files_skipped st + 1;
     total_lines_skipped := total_lines_skipped st + (count_newlines content + 1);
     skipped_files := skipped_files st ++ [rel];
     included_files := included_files st;
     stderr := stderr st ++ [m];
     history := history st ++ [o] |}.

(** "Add the file content to the output" up to [included_files.add]. *)
Definition append_file (file_path rel content file_content : str)
    (file_length file_tokens : Z) (st : state) : state :=
  {| output := output st ++ file_content;
     total_chars_copied := total_chars_copied st + file_length;
     total_tokens_copied := total_tokens_copied st + file_tokens;
     total_files_added := total_files_added st + 1;
     total_lines_added := total_lines_added st + (count_newlines content + 1);
     total_files_skipped := total_files_skipped st;
     total_lines_skipped := total_lines_skipped st;
     skipped_files := skipped_files st;
     included_files := {[ rel ]} ∪ included_files st;
     stderr := stderr st;
     history := history st ++ [Appended file_path rel content] |}.

(** The fenced block of one file. *)
Definition file_block (rel content : str) : str :=
  lit "```" ++ rel ++ nl ++ content ++ nl ++ lit "```" ++ nl ++ nl.

(** [limit is not None and value > limit] *)
Definition exceeds (limit : option Z) (value : Z) : bool :=
  match limit with
  | Some m => bool_decide (value > m)
  | None => false
  end.

(** [limit is not None and value >= limit] *)
Definition reaches (limit : option Z) (value : Z) : bool :=
  match limit with
  | Some m => bool_decide (value >= m)
  | None => false
  end.

(** Python list [remove]: the first entry of that name goes. The entries
    of [dirnames] are names for the loop body and, for [os.walk], names with
    what lies below them; [key] gives the name of an entry. *)
Fixpoint list_remove {A} (key : A -> str) (name : str) (l : list A) : list A :=
  match l with
  | [] => []
  | e :: l' => if decide (key e = name) then l' else e :: list_remove key name l'
  end.

(** "Exclude .git directory": [if ".git" in dirnames: dirnames.remove(".git")] *)
Definition without_git {A} (key : A -> str) (dirnames : list A) : list A :=
  if bool_decide (lit ".git" ∈ key <$> dirnames)
  then list_remove key (lit ".git") dirnames
  else dirnames.

Section Copier.
Context `{Platform} `{Tools}.

Definition get_token_count (text : str) (enc : encoding) : Z :=
  Z.of_nat (length (enc text)).

Definition load_gitignore : str -> bool :=
  let gitignore_path := lit ".gitignore" in
  if negb (Path_exists gitignore_path) then gitwildmatch []
  else match read_lines gitignore_path with
       | Some gitignore_patterns => gitwildmatch gitignore_patterns
       | None => gitwildmatch []
       end.

Definition should_ignore (relative_path : str) (spec : str -> bool) : bool :=
  let posix_path := replace os_sep slash relative_path in
  spec posix_path.

Fixpoint matches_include_patterns (relative_path : str)
    (include_patterns : list str) : bool :=
  match include_patterns with
  | [] => false
  | pattern :: rest =>
    if fnmatch relative_path pattern then true
    else matches_include_patterns relative_path rest
  end.

(** [open(file_path, "r", encoding="utf-8", errors="ignore")] and
    [f.read()], the same call at both places of the source. *)
Definition open_read (file_path : str) : option str :=
  file_bytes file_path ≫= Utf8.read_text.

(** "Exclude .gitignore and .git directory files" *)
Definition excluded_name (rel_file_posix : str) : bool :=
  bool_decide (rel_file_posix = lit ".gitignore")
  || startswith (lit ".git/") rel_file_posix.

(** What [os.walk] yields: [(dirpath, dirnames, filenames)]. *)
Definition visit : Type := str * list str * list str.

(** [os.walk(top)] as the loop of [collect_file_contents] drives it. The
    generator yields top-down; the loop body edits [dirnames] in place before
    the generator descends, so the directories visited are those the body
    leaves. [keep] is that edit; the visit records the names as first
    listed, for the body to edit and log. *)
Fixpoint os_walk (keep : forall A, (A -> str) -> str -> list A -> list A)
    (top : str) (t : tree) : list visit :=
  match t with
  | Node dirs files =>
    (top, dirs.*1, files)
    :: concat
         (keep _ fst top
            (List.map (fun e => (e.1, os_walk keep (os_path_join top e.1) e.2))
               dirs)).*2
  end.

Section Collect.
Variable include_patterns : list str.
Variable explicit_files : list str.
Variables max_files max_chars max_tokens : option Z.
Variable enc : encoding.

(** The values computed before the loops. *)
Variable spec : str -> bool.
Variable base_dir : str.
Variable explicit_files_abs : gset str.

(** "Check if limits are reached after adding the file": [true] is
    [break]. *)
Definition limits_reached (st : state) : bool :=
  if reaches max_files (total_files_added st) then true
  else if reaches max_chars (total_chars_copied st) then true
  else if reaches max_tokens (total_tokens_copied st) then true
  else false.

(** From "Prepare file content" to the limit checks; the source has this
    text twice, once in each loop. The flag is [true] for [break] and
    [false] when the loop goes on ([continue] or the end of the body). *)
Definition add_or_skip (file_path rel_file_posix content : str)
    (st : state) : state * bool :=
  let file_content := file_block rel_file_posix content in
  let file_length := len file_content in
  let file_tokens := get_token_count file_content enc in
  if exceeds max_chars (total_chars_copied st + file_length) then
    (record_skip (InfoCharLimit rel_file_posix)
       (OverChars file_path rel_file_posix content (total_chars_copied st))
       rel_file_posix content st, false)
  else if exceeds max_tokens (total_tokens_copied st + file_tokens) then
    (record_skip (InfoTokenLimit rel_file_posix)
       (OverTokens file_path rel_file_posix content (total_tokens_copied st))
       rel_file_posix content st, false)
  else
    let st' := append_file file_path rel_file_posix content file_content
                 file_length file_tokens st in
    (st', limits_reached st').

(** "Read the file" and what follows, in either loop. *)
Definition read_then_add (file_path rel_file_posix : str)
    (st : state) : state * bool :=
  match open_read file_path with
  | None => (print_stderr (FailedRead rel_file_posix) st, false)
  | Some content => add_or_skip file_path rel_file_posix content st
  end.

(** [rel_dir] of a visited directory. *)
Definition rel_dir_of (dirpath : str) : str :=
  let rel_dir := os_path_relpath dirpath base_dir in
  if decide (rel_dir = lit ".") then [] else replace os_sep slash rel_dir.

Definition rel_dir_path_of (rel_dir dirname : str) : str :=
  match rel_dir with
  | [] => dirname
  | _ => rel_dir ++ [slash] ++ dirname
  end.

(** [dirs_to_remove] for the names now in [dirnames]. *)
Definition dirs_to_remove (rel_dir : str) (dirnames : list str) : list str :=
  List.filter
    (fun dirname =>
       should_ignore (rel_dir_path_of rel_dir dirname ++ [slash]) spec)
    dirnames.

(** The in-place edit of [dirnames]: [.git] goes, then every ignored
    directory. *)
Definition prune (A : Type) (key : A -> str) (dirpath : str)
    (dirnames : list A) : list A :=
  let rel_dir := rel_dir_of dirpath in
  let dirnames := without_git key dirnames in
  foldl (fun l dirname => list_remove key dirname l) dirnames
    (dirs_to_remove rel_dir (key <$> dirnames)).

(** One pass of the body of [for filename in filenames]. *)
Definition walk_file (dirpath filename : str) (st : state) : state * bool :=
  let file_path := os_path_join dirpath filename in
  let rel_file := os_path_relpath file_path base_dir in
  let rel_file_posix := replace os_sep slash rel_file in
  if excluded_name rel_file_posix then (st, false)
  else
    let file_abs_path := Path_resolve file_path in
    if should_ignore rel_file_posix spec
       && negb (bool_decide (file_abs_path ∈ explicit_files_abs))
    then (print_stderr (InfoIgnored rel_file_posix) st, false)
    else if bool_decide (rel_file_posix ∈ included_files st) then (st, false)
    else if negb (matches_include_patterns rel_file_posix include_patterns)
            && negb (bool_decide (file_abs_path ∈ explicit_files_abs))
    then (st, false)
    else read_then_add file_path rel_file_posix st.

(** [for filename in filenames: ...]; a [break] leaves this loop only. *)
Fixpoint walk_files (dirpath : str) (filenames : list str)
    (st : state) : state :=
  match filenames with
  | [] => st
  | filename :: rest =>
    let '(st', stop) := walk_file dirpath filename st in
    if stop then st' else walk_files dirpath rest st'
  end.

(** The body of [for dirpath, dirnames, filenames in os.walk(base_dir)]. *)
Definition walk_dir (v : visit) (st : state) : state :=
  let '(dirpath, dirnames, filenames) := v in
  let rel_dir := rel_dir_of dirpath in
  let dirnames := without_git id dirnames in
  let st := foldl (fun st dirname =>
                     print_stderr
                       (InfoSkipDir (rel_dir_path_of rel_dir dirname)) st)
              st (dirs_to_remove rel_dir dirnames) in
  walk_files dirpath filenames st.

(** The whole first loop. *)
Definition walk (st : state) : state :=
  foldl (fun st v => walk_dir v st) st (os_walk prune base_dir cwd_tree).

(** One pass of the body of [for file_path in explicit_files]. *)
Definition explicit_file (file_path : str) (st : state) : state * bool :=
  let rel_file := replace os_sep slash (os_path_relpath file_path base_dir) in
  let rel_file_posix := Path_as_posix rel_file in
  if excluded_name rel_file_posix then (st, false)
  else if bool_decide (rel_file_posix ∈ included_files st) then (st, false)
  else if negb (Path_is_file file_path)
  then (print_stderr (WarnMissing rel_file_posix) st, false)
  else read_then_add file_path rel_file_posix st.

(** "Handle explicit files not captured via patterns" *)
Fixpoint explicit_pass (files : list str) (st : state) : state :=
  match files with
  | [] => st
  | file_path :: rest =>
    let '(st', stop) := explicit_file file_path st in
    if stop then st' else explicit_pass rest st'
  end.

(** The state when both loops are over. *)
Definition collected : state := explicit_pass explicit_files (walk initial).

End Collect.

Definition summary_of (st : state) : summary :=
  {| files_added := total_files_added st;
     chars_copied := total_chars_copied st;
     tokens_copied := total_tokens_copied st;
     lines_added := total_lines_added st;
     files_skipped := total_files_skipped st;
     lines_skipped := total_lines_skipped st;
     skipped := skipped_files st |}.

(** The final state of a run of [collect_file_contents], before the closing
    delimiter is appended. *)
Definition run (include_patterns explicit_files : list str)
    (max_files max_chars max_tokens : option Z) (enc : encoding) : state :=
  let spec := load_gitignore in
  let base_dir := Path_cwd in
  let explicit_files_abs : gset str :=
    list_to_set (Path_resolve <$> explicit_files) in
  collected include_patterns explicit_files max_files max_chars max_tokens
    enc spec base_dir explicit_files_abs.

Definition collect_file_contents (include_patterns explicit_files : list str)
    (max_files max_chars max_tokens : option Z) (enc : encoding)
    : str * summary :=
  let st := run include_patterns explicit_files max_files max_chars
              max_tokens enc in
  (output st ++ code_sample_close, summary_of st).

End Copier.

(* ===================================================================== *)
(** ** config.py *)

Module Config.

(** The JSON object of the configuration file. *)
Record config := {
  include_patterns : list str;
  explicit_files : list str;
}.

Definition empty : config := {| include_patterns := []; explicit_files := [] |}.

(** A configuration file: missing, present but not loadable, or holding a
    configuration. *)
Inductive file := Absent | Unreadable | Holds (c : config).

(** The two places [get_config_path] looks at, with the file at each and
    whether [open(path, "w")] succeeds there. *)
Record files := {
  project_config : file;
  home_config : file;
  project_writable : bool;
  home_writable : bool;
}.

Inductive place := Project | Home.

Definition exists_ (f : file) : bool :=
  match f with Absent => false | _ => true end.

Definition get_config_path (fs : files) : place :=
  if exists_ (project_config fs) then Project else Home.

Definition at_place (p : place) (fs : files) : file :=
  match p with Project => project_config fs | Home => home_config fs end.

Definition writable (p : place) (fs : files) : bool :=
  match p with Project => project_writable fs | Home => home_writable fs end.

Definition load_config (fs : files) : config :=
  let config_path := get_config_path fs in
  match at_place config_path fs with
  | Holds c => c
  | Absent | Unreadable => empty
  end.

(** Whether the [open(config_path, "w")] of [save_config] succeeds. *)
Definition can_write (fs : files) : bool := writable (get_config_path fs) fs.

(** [json.dump] into the file at [get_config_path()]. When the file cannot
    be opened for writing the exception is caught, "Error saving config" is
    printed and the file is left as it was. *)
Definition save_config (c : config) (fs : files) : files :=
  let config_path := get_config_path fs in
  if writable config_path fs then
    match config_path with
    | Project => {| project_config := Holds c; home_config := home_config fs;
                    project_writable := project_writable fs;
                    home_writable := home_writable fs |}
    | Home => {| project_config := project_config fs; home_config := Holds c;
                 project_writable := project_writable fs;
                 home_writable := home_writable fs |}
    end
  else fs.

(** Whether [save_config] prints "Error saving config". *)
Definition save_error (fs : files) : bool := negb (can_write fs).

Definition is_glob_pattern (pattern : str) : bool :=
  existsb (fun char => bool_decide (char ∈ pattern)) [42%N; 63%N; 91%N; 93%N].

(** What [add_patterns] reports: the entries it appended. *)
Record added := {
  added_globs : list str;
  added_files : list str;
}.

Section Store.
Context `{Platform}.

(** One pass of the body of [for pattern in patterns]. *)
Definition add_pattern (pattern : str) (acc : config * added) : config * added :=
  let '(cfg, rep) := acc in
  let normalized := strip pattern in
  if is_glob_pattern normalized then
    if bool_decide (normalized ∉ include_patterns cfg) then
      ({| include_patterns := include_patterns cfg ++ [normalized];
          explicit_files := explicit_files cfg |},
       {| added_globs := added_globs rep ++ [normalized];
          added_files := added_files rep |})
    else (cfg, rep)
  else
    let absolute_path := Path_resolve normalized in
    if bool_decide (absolute_path ∉ explicit_files cfg) then
      ({| include_patterns := include_patterns cfg;
          explicit_files := explicit_files cfg ++ [absolute_path] |},
       {| added_globs := added_globs rep;
          added_files := added_files rep ++ [absolute_path] |})
    else (cfg, rep).

Definition add_patterns (patterns : list str) (fs : files) : files * added :=
  let config := load_config fs in
  let '(config, rep) :=
    foldl (fun acc pattern => add_pattern pattern acc)
      (config, {| added_globs := []; added_files := [] |}) patterns in
  (save_config config fs, rep).

(** What [remove_patterns] reports: the entries it removed and, for each
    "is not in the list" notice, the entry it names. *)
Record removed := {
  removed_globs : list str;
  removed_files : list str;
  not_in_list : list str;
}.

(** One pass of the body of [for pattern in patterns] of
    [remove_patterns]. *)
Definition remove_pattern (pattern : str) (acc : config * removed)
    : config * removed :=
  let '(cfg, rep) := acc in
  let normalized := strip pattern in
  if is_glob_pattern normalized then
    if bool_decide (normalized ∈ include_patterns cfg) then
      ({| include_patterns := list_remove id normalized (include_patterns cfg);
          explicit_files := explicit_files cfg |},
       {| removed_globs := removed_globs rep ++ [normalized];
          removed_files := removed_files rep;
          not_in_list := not_in_list rep |})
    else
      (cfg,
       {| removed_globs := removed_globs rep;
          removed_files := removed_files rep;
          not_in_list := not_in_list rep ++ [normalized] |})
  else
    let absolute_path := Path_resolve normalized in
    if bool_decide (absolute_path ∈ explicit_files cfg) then
      ({| include_patterns := include_patterns cfg;
          explicit_files := list_remove id absolute_path (explicit_files cfg) |},
       {| removed_globs := removed_globs rep;
          removed_files := removed_files rep ++ [absolute_path];
          not_in_list := not_in_list rep |})
    else
      (cfg,
       {| removed_globs := removed_globs rep;
          removed_files := removed_files rep;
          not_in_list := not_in_list rep ++ [absolute_path] |}).

Definition remove_patterns (patterns : list str) (fs : files) : files * removed :=
  let config := load_config fs in
  let '(config, rep) :=
    foldl (fun acc pattern => remove_pattern pattern acc)
      (config,
       {| removed_globs := []; removed_files := []; not_in_list := [] |})
      patterns in
  (save_config config fs, rep).

End Store.

(** The truth value of a Python list. *)
Definition truthy (l : list str) : bool :=
  match l with [] => false | _ :: _ => true end.

(** What [list_patterns] prints. *)
Inductive listing :=
| CurrentPatterns (glob_patterns : list str)
| CurrentFiles (explicit_files : list str)
| NothingFound.

Definition list_patterns (fs : files) : list listing :=
  let config := load_config fs in
  let glob_patterns := include_patterns config in
  let explicit_files := explicit_files config in
  if truthy glob_patterns || truthy explicit_files then
    (if truthy glob_patterns then [CurrentPatterns glob_patterns] else [])
    ++ (if truthy explicit_files then [CurrentFiles explicit_files] else [])
  else [NothingFound].

(** [clear_all_patterns]; the flag tells which of the two messages is
    printed: [true] for "have been cleared", [false] for "to clear". *)
Definition clear_all_patterns (fs : files) : files * bool :=
  let config := load_config fs in
  let has_patterns := truthy (include_patterns config)
                      || truthy (explicit_files config) in
  if has_patterns then (save_config empty fs, true) else (fs, false).

End Config.

(* ===================================================================== *)
(** ** copier.py: the copy command *)

(** The parsed arguments of the [copy] sub-command. *)
Record args := {
  arg_max_files : option Z;
  arg_max_chars : option Z;
  arg_max_tokens : option Z;
  arg_model : str;
}.

(** What [perform_copy] does to the outside, in order: the two error
    messages ("No include patterns or explicit files found", "No files to
    copy after applying limits and .gitignore rules"), the warning for an
    unknown model, the messages of the collection, [pyperclip.copy], and the
    prints that follow it. *)
Inductive effect :=
| ErrNoPatterns
| WarnModelNotFound (model : str)
| Collecting (m : message)
| ErrNoFiles
| ClipboardCopy (text : str)
| PrintCopied
| PrintSummary (s : summary) (max_files max_chars max_tokens : option Z)
| PrintTokenLimitReached
| PrintTokensRemaining (remaining : Z)
| PrintRule.

Section Copy.
Context `{Platform} `{Tools}.

(** "Optional: Estimate remaining tokens" *)
Definition token_note (max_tokens : option Z) (s : summary) : list effect :=
  match max_tokens with
  | None => []
  | Some m =>
    if bool_decide (tokens_copied s >= m) then [PrintTokenLimitReached]
    else if bool_decide (tokens_copied s > 0)
         then [PrintTokensRemaining (m - tokens_copied s)]
         else []
  end.

Definition perform_copy (a : args) (fs : Config.files) : list effect :=
  let config := Config.load_config fs in
  let include_patterns := Config.include_patterns config in
  let explicit_files := Config.explicit_files config in
  if bool_decide (include_patterns = []) && bool_decide (explicit_files = [])
  then [ErrNoPatterns]
  else
    let '(warn, enc) :=
      match encoding_for_model (arg_model a) with
      | Some e => ([], e)
      | None => ([WarnModelNotFound (arg_model a)], cl100k_base)
      end in
    let st := run include_patterns explicit_files (arg_max_files a)
                (arg_max_chars a) (arg_max_tokens a) enc in
    let '(file_contents, summary) :=
      collect_file_contents include_patterns explicit_files (arg_max_files a)
        (arg_max_chars a) (arg_max_tokens a) enc in
    warn ++ (Collecting <$> stderr st) ++
    if bool_decide (files_added summary = 0) then [ErrNoFiles]
    else
      [ClipboardCopy file_contents; PrintCopied;
       PrintSummary summary (arg_max_files a) (arg_max_chars a)
         (arg_max_tokens a)]
      ++ token_note (arg_max_tokens a) summary ++ [PrintRule].

(** Whether the run wrote to the clipboard. *)
Definition clipboard_written (es : list effect) : bool :=
  existsb (fun e => match e with ClipboardCopy _ => true | _ => false end) es.

(** Whether the run printed one of its two error messages. *)
Definition error_printed (es : list effect) : bool :=
  existsb (fun e => match e with ErrNoPatterns | ErrNoFiles => true | _ => false end) es.

End Copy.

(** The lines [print_summary] prints, by what they say. *)
Inductive summary_line :=
| Rule
| Title
| FilesCopied (n : Z) (limit : option Z)
| TotalCharacters (n : Z) (limit : option Z)
| TotalTokens (n : Z) (limit : option Z)
| TotalLinesAdded (n : Z)
| Warnings
| DashRule
| FilesSkipped (n : Z)
| LinesSkipped (n : Z)
| SkippedFilesHeader
| SkippedFile (file : str)
| NoFilesSkipped.

Definition print_summary (s : summary)
    (max_files max_chars max_tokens : option Z) : list summary_line :=
  [Rule; Title; Rule;
   FilesCopied (files_added s) max_files;
   TotalCharacters (chars_copied s) max_chars;
   TotalTokens (tokens_copied s) max_tokens;
   TotalLinesAdded (lines_added s)]
  ++ (if bool_decide (files_skipped s > 0) then
        [Warnings; DashRule; FilesSkipped (files_skipped s);
         LinesSkipped (lines_skipped s); SkippedFilesHeader]
        ++ (SkippedFile <$> skipped s)
      else [NoFilesSkipped])
  ++ [Rule].

(* ===================================================================== *)
(** ** A concrete world for the examples

    A POSIX platform whose files all lie below the working directory [/w],
    without symbolic links; a glob matcher for [*] and [?] in place of
    [fnmatch]; ignore rules that are either a directory name followed by
    [/] (everything below it) or a glob; a tokenizer with one token per
    code point. *)

Module Example.

Definition utf8 (s : String.string) : list byte := String.list_byte_of_string s.

Fixpoint glob (pat s : str) : bool :=
  match pat with
  | [] => match s with [] => true | _ => false end
  | p :: pat' =>
    if decide (p = 42%N) then
      (fix star (s : str) : bool :=
         glob pat' s || match s with [] => false | _ :: s' => star s' end) s
    else
      match s with
      | [] => false
      | c :: s' => (bool_decide (p = 63%N) || bool_decide (p = c)) && glob pat' s'
      end
  end.

Definition ignore_rule (line path : str) : bool :=
  match rev line with
  | c :: _ => if decide (c = slash) then startswith line path else glob line path
  | [] => false
  end.

Definition posix_join (a b : str) : str :=
  if startswith [slash] b then b
  else match rev a with
       | [] => b
       | c :: _ => if decide (c = slash) then a ++ b else a ++ [slash] ++ b
       end.

Definition posix_relpath (path start : str) : str :=
  if decide (path = start) then lit "."
  else if startswith (start ++ [slash]) path
       then drop (length start + 1) path
       else path.

Definition lookup_file {A} (files : list (str * A)) (p : str) : option A :=
  snd <$> List.find (fun e => bool_decide (e.1 = p)) files.

Definition cwd : str := lit "/w".

Definition absolute (p : str) : str :=
  if startswith [slash] p then p
  else if startswith (lit "./") p then posix_join cwd (drop 2 p)
       else posix_join cwd p.

(** The world with the given tree below [/w], the given file contents (by
    absolute path) and the given lines of [/w/.gitignore]. *)
Definition platform (t : tree) (files : list (str * list byte))
    (gitignore : option (list str)) : Platform :=
  {| os_sep := slash;
     os_path_join := posix_join;
     os_path_relpath := posix_relpath;
     Path_cwd := cwd;
     cwd_tree := t;
     Path_resolve := absolute;
     Path_as_posix := fun p => p;
     Path_exists := fun p =>
       bool_decide (p = lit ".gitignore") && bool_decide (is_Some gitignore);
     Path_is_file := fun p => bool_decide (is_Some (lookup_file files (absolute p)));
     file_bytes := fun p => lookup_file files (absolute p);
     read_lines := fun _ => gitignore |}.

Definition one_token_per_char : encoding := fun text => text.

Definition tools : Tools :=
  {| fnmatch := fun name pat => glob pat name;
     gitwildmatch := fun lines path => existsb (fun l => ignore_rule l path) lines;
     encoding_for_model := fun _ => Some one_token_per_char;
     cl100k_base := one_token_per_char |}.

(** [/w/a.txt] and [/w/sub/b.txt], no ignore file. *)
Definition two_dirs : Platform :=
  platform (Node [(lit "sub", Node [] [lit "b.txt"])] [lit "a.txt"])
    [(lit "/w/a.txt", utf8 "hi"); (lit "/w/sub/b.txt", utf8 "yo")]
    None.

(** [/w/secret.env], which the ignore file excludes. *)
Definition ignored_secret : Platform :=
  platform (Node [] [lit "secret.env"])
    [(lit "/w/secret.env", utf8 "k=v")]
    (Some [lit "*.env"]).

(** [/w/a.txt] and [/w/build/out.txt], with [build/] ignored. *)
Definition pruned_dir : Platform :=
  platform (Node [(lit "build", Node [] [lit "out.txt"])] [lit "a.txt"])
    [(lit "/w/a.txt", utf8 "hi"); (lit "/w/build/out.txt", utf8 "yo")]
    (Some [lit "build/"]).

(** A repository: [/w/.git/config], [/w/.gitignore], [/w/a.txt] and
    [/w/src/m.py]. *)
Definition with_git : Platform :=
  platform
    (Node [(lit ".git", Node [] [lit "config"]); (lit "src", Node [] [lit "m.py"])]
       [lit ".gitignore"; lit "a.txt"])
    [(lit "/w/.git/config", utf8 "[core]"); (lit "/w/.gitignore", utf8 "*.log");
     (lit "/w/a.txt", utf8 "hi"); (lit "/w/src/m.py", utf8 "pass")]
    (Some [lit "*.log"]).

(** [/w/n.txt] holds the bytes [68 FF 69]: an [h], a byte that is not
    UTF-8, an [i]. *)
Definition not_utf8 : list byte := [x68; xff; x69].
Definition latin1_file : Platform :=
  platform (Node [] [lit "n.txt"]) [(lit "/w/n.txt", not_utf8)] None.

(** The example of the specification: [a.txt] holding [hi] beside
    [b.md]. *)
Definition txt_and_md : Platform :=
  platform (Node [] [lit "a.txt"; lit "b.md"])
    [(lit "/w/a.txt", utf8 "hi"); (lit "/w/b.md", utf8 "# b")]
    None.

(** No configuration file anywhere; both places can be written. *)
Definition no_config : Config.files :=
  {| Config.project_config := Config.Absent;
     Config.home_config := Config.Absent;
     Config.project_writable := true;
     Config.home_writable := true |}.

(** A configuration file in the working directory. *)
Definition project_config (include_patterns explicit_files : list str)
    : Config.files :=
  {| Config.project_config :=
       Config.Holds {| Config.include_patterns := include_patterns;
                       Config.explicit_files := explicit_files |};
     Config.home_config := Config.Absent;
     Config.project_writable := true;
     Config.home_writable := true |}.

(** The same file where the working directory is read-only. *)
Definition read_only_config (include_patterns explicit_files : list str)
    : Config.files :=
  {| Config.project_config :=
       Config.Holds {| Config.include_patterns := include_patterns;
                       Config.explicit_files := explicit_files |};
     Config.home_config := Config.Absent;
     Config.project_writable := false;
     Config.home_writable := true |}.

Definition default_args : args :=
  {| arg_max_files := Some 50; arg_max_chars := Some 1000000;
     arg_max_tokens := Some 128000; arg_model := lit "gpt-3.5-turbo" |}.

End Example.

(* ===================================================================== *)
(** ** Properties of a run, as predicates on the state *)

(** The files appended so far: path opened, label, text. *)
Definition appended (h : list outcome) : list (str * str * str) :=
  omap (fun o => match o with
                 | Appended p r c => Some (p, r, c)
                 | _ => None
                 end) h.

(** The labels of the fenced blocks appended so far, in order. *)
Definition labels (h : list outcome) : list str :=
  (fun a => a.1.2) <$> appended h.

(** The fenced blocks appended so far, in order. *)
Definition blocks (h : list outcome) : list str :=
  (fun a => file_block a.1.2 a.2) <$> appended h.

(** The labels of the files the budget checks turned away, in order. *)
Definition budget_skips (h : list outcome) : list str :=
  omap (fun o => match o with
                 | Appended _ _ _ => None
                 | OverChars _ r _ _ | OverTokens _ r _ _ => Some r
                 end) h.

(** Directory entries have distinct names, at every level. *)
Fixpoint wf_tree (t : tree) : Prop :=
  match t with
  | Node dirs _ =>
    NoDup dirs.*1
    ∧ (fix all (l : list (str * tree)) : Prop :=
         match l with
         | [] => True
         | e :: l' => wf_tree e.2 ∧ all l'
         end) dirs
  end.

(** How often [e] occurs in [l]. *)
Definition occurrences (e : str) (l : list str) : nat :=
  length (List.filter (fun x => bool_decide (x = e)) l).

Section Properties.
Context `{Platform} `{Tools}.
Variable include_patterns : list str.
Variables max_files max_chars max_tokens : option Z.
Variable enc : encoding.
Variable spec : str -> bool.
Variable base_dir : str.
Variable explicit_files_abs : gset str.

(** A file that may reach the budget checks: not one of the excluded
    names, readable, matched by a pattern or explicit, and explicit when
    the ignore rules match it. *)
Definition eligible (file_path rel content : str) : Prop :=
  excluded_name rel = false
  ∧ open_read file_path = Some content
  ∧ (matches_include_patterns rel include_patterns = true
     ∨ Path_resolve file_path ∈ explicit_files_abs)
  ∧ (should_ignore rel spec = true → Path_resolve file_path ∈ explicit_files_abs).

(** Each recorded outcome is the branch the source would take. *)
Definition justified (o : outcome) : Prop :=
  match o with
  | Appended p r c => eligible p r c
  | OverChars p r c before =>
    eligible p r c
    ∧ ∃ m, max_chars = Some m ∧ before + len (file_block r c) > m
  | OverTokens p r c before =>
    eligible p r c
    ∧ ∃ m, max_tokens = Some m
           ∧ before + get_token_count (file_block r c) enc > m
  end.

(** The tokens of the blocks appended so far. *)
Definition tokens_of (h : list outcome) : Z :=
  foldr (fun b a => get_token_count b enc + a) 0 (blocks h).

(** The running total a skip was compared with is that of the blocks
    appended before it. *)
Definition before_ok (h1 : list outcome) (o : outcome) : Prop :=
  match o with
  | Appended _ _ _ => True
  | OverChars _ _ _ before => before = len (concat (blocks h1))
  | OverTokens _ _ _ before => before = tokens_of h1
  end.

(** What holds of the local variables at every point of both loops. *)
Record invariant (st : state) : Prop := {
  inv_output : output st = code_sample_open ++ concat (blocks (history st));
  inv_chars : total_chars_copied st = len (concat (blocks (history st)));
  inv_files : total_files_added st = Z.of_nat (length (appended (history st)));
  inv_tokens : total_tokens_copied st = tokens_of (history st);
  inv_included : ∀ r, r ∈ included_files st ↔ r ∈ labels (history st);
  inv_nodup : NoDup (labels (history st));
  inv_skipped : skipped_files st = budget_skips (history st);
  inv_nskipped : total_files_skipped st = Z.of_nat (length (skipped_files st));
  inv_justified : Forall justified (history st);
  inv_before : ∀ h1 o h2, history st = h1 ++ o :: h2 → before_ok h1 o;
}.

(** The state only grows: nothing collected or skipped is forgotten and no
    total decreases. *)
Definition grows (st st' : state) : Prop :=
  included_files st ⊆ included_files st'
  ∧ skipped_files st ⊆ skipped_files st'
  ∧ total_files_added st <= total_files_added st'
  ∧ total_chars_copied st <= total_chars_copied st'
  ∧ total_tokens_copied st <= total_tokens_copied st'.

(** The fate of a label once its file has had its turn: in the bundle,
    or turned away by a budget check, or cut off by a limit reached. *)
Definition settled (rel : str) (st : state) : Prop :=
  rel ∈ included_files st
  ∨ rel ∈ skipped_files st
  ∨ limits_reached max_files max_chars max_tokens st = true.

(** The label the walk gives the file [filename] of directory [dirpath]. *)
Definition walk_label (dirpath filename : str) : str :=
  replace os_sep slash (os_path_relpath (os_path_join dirpath filename) base_dir).

(** The label the second loop gives an entry of [explicit_files]. *)
Definition explicit_label (file_path : str) : str :=
  Path_as_posix (replace os_sep slash (os_path_relpath file_path base_dir)).

(** The budget tests as the specification words them: a limit is set and
    the value is above it, or has reached it. *)
Definition above (limit : option Z) (value : Z) : Prop :=
  ∃ m, limit = Some m ∧ m < value.

Definition reached_limit (limit : option Z) (value : Z) : Prop :=
  ∃ m, limit = Some m ∧ m <= value.

(** [st'] is [st] after the file was recorded as skipped, with [notice]
    printed: every variable of the run but the three of the skip record is
    as it was. *)
Definition skipped_as (notice : message) (rel content : str)
    (st st' : state) : Prop :=
  total_files_skipped st' = total_files_skipped st + 1
  ∧ total_lines_skipped st' = total_lines_skipped st + (count_newlines content + 1)
  ∧ skipped_files st' = skipped_files st ++ [rel]
  ∧ stderr st' = stderr st ++ [notice]
  ∧ output st' = output st
  ∧ total_files_added st' = total_files_added st
  ∧ total_chars_copied st' = total_chars_copied st
  ∧ total_tokens_copied st' = total_tokens_copied st
  ∧ total_lines_added st' = total_lines_added st
  ∧ included_files st' = included_files st.

(** [st'] is [st] after the file was appended; nothing is printed. *)
Definition appended_as (rel content : str) (st st' : state) : Prop :=
  output st' = output st ++ file_block rel content
  ∧ total_files_added st' = total_files_added st + 1
  ∧ total_chars_copied st' = total_chars_copied st + len (file_block rel content)
  ∧ total_tokens_copied st'
    = total_tokens_copied st + Z.of_nat (length (enc (file_block rel content)))
  ∧ total_lines_added st' = total_lines_added st + (count_newlines content + 1)
  ∧ included_files st' = {[ rel ]} ∪ included_files st
  ∧ total_files_skipped st' = total_files_skipped st
  ∧ total_lines_skipped st' = total_lines_skipped st
  ∧ skipped_files st' = skipped_files st
  ∧ stderr st' = stderr st.

(** One of the three limits is reached in [st]. *)
Definition stops (st : state) : Prop :=
  reached_limit max_files (total_files_added st)
  ∨ reached_limit max_chars (total_chars_copied st)
  ∨ reached_limit max_tokens (total_tokens_copied st).

(** The order of the budget checks for a candidate file with label [rel]
    and text [content], met in state [st] by a loop whose remaining passes
    are [continue]; [result] is what the loop returns. If the characters
    would pass [max_chars] the file is skipped with the character notice,
    whatever the tokens; if not, and the tokens would pass [max_tokens], it
    is skipped with the token notice; if neither, it is appended, and the
    loop ends there when a limit is reached. *)
Definition budget_order (rel content : str) (st : state)
    (continue : state -> state) (result : state) : Prop :=
  let block := file_block rel content in
  let chars := total_chars_copied st + len block in
  let tokens := total_tokens_copied st + Z.of_nat (length (enc block)) in
  (above max_chars chars →
   ∃ st', skipped_as (InfoCharLimit rel) rel content st st'
          ∧ result = continue st')
  ∧ (¬ above max_chars chars → above max_tokens tokens →
     ∃ st', skipped_as (InfoTokenLimit rel) rel content st st'
            ∧ result = continue st')
  ∧ (¬ above max_chars chars → ¬ above max_tokens tokens →
     ∃ st', appended_as rel content st st'
            ∧ (stops st' → result = st')
            ∧ (¬ stops st' → result = continue st')).

(** A file of the walk that gets as far as the budget checks. *)
Definition walk_candidate (dirpath filename content : str) (st : state) : Prop :=
  let file_path := os_path_join dirpath filename in
  let rel := walk_label dirpath filename in
  excluded_name rel = false
  ∧ (should_ignore rel spec = true → Path_resolve file_path ∈ explicit_files_abs)
  ∧ (rel ∉ included_files st)
  ∧ (matches_include_patterns rel include_patterns = true
     ∨ Path_resolve file_path ∈ explicit_files_abs)
  ∧ open_read file_path = Some content.

(** An entry of [explicit_files] that gets as far as the budget checks. *)
Definition explicit_candidate (file_path content : str) (st : state) : Prop :=
  let rel := explicit_label file_path in
  excluded_name rel = false
  ∧ (rel ∉ included_files st)
  ∧ Path_is_file file_path = true
  ∧ open_read file_path = Some content.

End Properties.

(* ===================================================================== *)
(** ** Further properties of a run *)

(** [content.count("\n") + 1] *)
Definition line_count (content : str) : Z := count_newlines content + 1.

(** The lines of the files appended so far. *)
Definition lines_appended (h : list outcome) : Z :=
  foldr (fun a n => line_count a.2 + n) 0 (appended h).

(** The lines of the files the budget checks turned away so far. *)
Definition lines_turned_away (h : list outcome) : Z :=
  foldr (fun o n =>
           match o with
           | Appended _ _ _ => n
           | OverChars _ _ c _ | OverTokens _ _ c _ => line_count c + n
           end) 0 h.

(** The paths named by the "would exceed ... limit" notices of a log. *)
Definition budget_notices (log : list message) : list str :=
  omap (fun m => match m with
                 | InfoCharLimit r | InfoTokenLimit r => Some r
                 | _ => None
                 end) log.

(** The messages printed outside the budget checks. *)
Definition outside_budget (m : message) : Prop :=
  match m with
  | InfoCharLimit _ | InfoTokenLimit _ => False
  | _ => True
  end.

(** A total is within its limit, or nothing was added yet. *)
Definition within (limit : option Z) (total files : Z) : Prop :=
  match limit with
  | Some m => total <= m ∨ files = 0
  | None => True
  end.

(* ===================================================================== *)
(** ** Proof tactics *)

(** Reduce the projections of a state built by one of the three updates. *)
Ltac fields :=
  unfold print_stderr, record_skip, append_file;
  cbn [fst snd output total_chars_copied total_tokens_copied total_files_added
       total_lines_added total_files_skipped total_lines_skipped
       skipped_files included_files stderr history].

(** Case analysis along the branches of [decode] on a non-empty input. *)
Ltac decode_cases :=
  cbn [Utf8.decode];
  repeat match goal with
         | |- context [if ?b then _ else _] => destruct b eqn:?
         | |- context [match ?l with [] => _ | _ :: _ => _ end] => destruct l
         end;
  cbn [Utf8.on_error].

Ltac use_conditions :=
  cbn [Utf8.decode];
  repeat match goal with
         | E : ?b = _ |- context [?b] => rewrite E; cbv iota beta
         end.

(** Linear arithmetic with division and remainder by constants. *)
Ltac divlia := zify; Z.to_euclidean_division_equations; lia.

(** Boolean tests of the decoder as propositions on byte values. *)
Ltac to_props :=
  unfold Utf8.is_continuation, Utf8.bad_second3, Utf8.bad_second4,
    Utf8.scalar in *;
  repeat match goal with
         | H : context [if ?b then _ else _] |- _ => destruct b eqn:?
         end;
  do 3 rewrite ?andb_true_iff, ?andb_false_iff, ?orb_true_iff, ?orb_false_iff,
    ?negb_true_iff, ?negb_false_iff in *;
  rewrite ?N.ltb_lt, ?N.ltb_ge, ?N.leb_le, ?N.leb_gt, ?N.eqb_eq, ?N.eqb_neq
    in *.

(** The UTF-8 form of a code point computed from its bytes. *)
Ltac encode_tac :=
  unfold Utf8.encode, Utf8.scalar, Utf8.cp2, Utf8.cp3, Utf8.cp4;
  repeat match goal with
         | |- context [(?a <? ?b)%N] =>
           let E := fresh "E" in
           destruct (a <? b)%N eqn:E;
           [apply N.ltb_lt in E|apply N.ltb_ge in E]
         end;
  cbn [orb andb]; try divlia;
  (split; [|done]);
  repeat (f_equal; try divlia).

(** No character begins at a byte the decoder takes for undecodable;
    [shape] says what the bytes look like where one begins. *)
Ltac no_char shape :=
  let H := fresh in
  intros H; apply shape in H;
  destruct H as [H|[[? (? & ? & ? & ?)]|[[? (? & ? & ? & ? & ?)]
                     |[? (? & ? & ? & ? & ? & ?)]]]];
  simplify_eq; to_props; lia.

(* ===================================================================== *)
(** ** Lemmas on strings and on the recorded outcomes *)

Lemma len_app (a b : str) : len (a ++ b) = len a + len b.
Proof. unfold len. rewrite length_app. lia. Qed.

Lemma len_nonneg (a : str) : 0 <= len a.
Proof. unfold len. lia. Qed.

Lemma appended_snoc h o :
  appended (h ++ [o])
  = appended h ++ match o with Appended p r c => [(p, r, c)] | _ => [] end.
Proof. unfold appended. rewrite omap_app. by destruct o. Qed.

Lemma budget_skips_snoc h o :
  budget_skips (h ++ [o])
  = budget_skips h ++ match o with
                      | Appended _ _ _ => []
                      | OverChars _ r _ _ | OverTokens _ r _ _ => [r]
                      end.
Proof. unfold budget_skips. rewrite omap_app. by destruct o. Qed.

Lemma labels_snoc_appended h p r c :
  labels (h ++ [Appended p r c]) = labels h ++ [r].
Proof. unfold labels. by rewrite appended_snoc, fmap_app. Qed.

Lemma blocks_snoc_appended h p r c :
  concat (blocks (h ++ [Appended p r c])) = concat (blocks h) ++ file_block r c.
Proof.
  unfold blocks. rewrite appended_snoc, fmap_app, concat_app. simpl.
  by rewrite app_nil_r.
Qed.

Lemma appended_snoc_skip h o :
  (∀ p r c, o ≠ Appended p r c) → appended (h ++ [o]) = appended h.
Proof.
  intros Ho. rewrite appended_snoc.
  destruct o as [p r c| |]; [by destruct (Ho p r c)| |]; by rewrite app_nil_r.
Qed.

Lemma blocks_snoc_skip h o :
  (∀ p r c, o ≠ Appended p r c) → blocks (h ++ [o]) = blocks h.
Proof. intros Ho. unfold blocks. by rewrite appended_snoc_skip. Qed.

Lemma tokens_of_snoc_appended enc h p r c :
  tokens_of enc (h ++ [Appended p r c])
  = tokens_of enc h + get_token_count (file_block r c) enc.
Proof.
  unfold tokens_of, blocks. rewrite appended_snoc, fmap_app. simpl.
  induction (_ <$> appended h) as [|b l IH]; simpl; [lia|]. rewrite IH. lia.
Qed.

Lemma tokens_of_snoc_skip enc h o :
  (∀ p r c, o ≠ Appended p r c) → tokens_of enc (h ++ [o]) = tokens_of enc h.
Proof. intros Ho. unfold tokens_of. by rewrite blocks_snoc_skip. Qed.

Lemma tokens_of_nonneg enc h : 0 <= tokens_of enc h.
Proof.
  unfold tokens_of. induction (blocks h) as [|b l IH]; cbn [foldr]; [lia|].
  unfold get_token_count at 1. lia.
Qed.

(** The last outcome of a history, or an earlier one. *)
Lemma snoc_split {A} (h h1 h2 : list A) (o o' : A) :
  h ++ [o'] = h1 ++ o :: h2 →
  (h1 = h ∧ o = o' ∧ h2 = []) ∨ (∃ h2', h2 = h2' ++ [o'] ∧ h = h1 ++ o :: h2').
Proof.
  destruct h2 as [|y h2 _] using rev_ind; intros Heq.
  - apply app_inj_tail in Heq. destruct Heq as [-> ->]. left. by repeat split.
  - change (h1 ++ o :: h2 ++ [y]) with (h1 ++ (o :: h2) ++ [y]) in Heq.
    rewrite app_assoc in Heq. apply app_inj_tail in Heq.
    destruct Heq as [-> ->]. right. by exists h2.
Qed.

(** Each block is the fenced block of the label at its place. *)
Lemma blocks_labelled h :
  Forall2 (fun block rel => ∃ content, block = file_block rel content)
    (blocks h) (labels h).
Proof.
  unfold blocks, labels. induction (appended h) as [|a l IH]; [constructor|].
  rewrite !fmap_cons. constructor; [by exists a.2|exact IH].
Qed.

Lemma code_sample_open_len : len code_sample_open = 14.
Proof. reflexivity. Qed.

Lemma code_sample_close_len : len code_sample_close = 14.
Proof. reflexivity. Qed.

Lemma reaches_mono limit v v' :
  v <= v' → reaches limit v = true → reaches limit v' = true.
Proof.
  destruct limit as [m|]; simpl; [|done].
  intros Hv ?%bool_decide_eq_true. apply bool_decide_eq_true. lia.
Qed.

Lemma reached_true max_files max_chars max_tokens st :
  limits_reached max_files max_chars max_tokens st = true ↔
  reaches max_files (total_files_added st) = true
  ∨ reaches max_chars (total_chars_copied st) = true
  ∨ reaches max_tokens (total_tokens_copied st) = true.
Proof.
  unfold limits_reached.
  destruct (reaches max_files _), (reaches max_chars _), (reaches max_tokens _);
    intuition congruence.
Qed.

(* ===================================================================== *)
(** ** The invariant of the two loops *)

Section Invariants.
Context `{Platform} `{Tools}.
Variable include_patterns : list str.
Variables max_files max_chars max_tokens : option Z.
Variable enc : encoding.
Variable spec : str -> bool.
Variable base_dir : str.
Variable explicit_files_abs : gset str.

Local Abbreviation Inv :=
  (invariant include_patterns max_chars max_tokens enc spec explicit_files_abs).
Local Abbreviation Eligible :=
  (eligible include_patterns spec explicit_files_abs).
Local Abbreviation Justified :=
  (justified include_patterns max_chars max_tokens enc spec explicit_files_abs).
Local Abbreviation reached := (limits_reached max_files max_chars max_tokens).
Local Abbreviation step := (add_or_skip max_files max_chars max_tokens enc).
Local Abbreviation read_step := (read_then_add max_files max_chars max_tokens enc).
Local Abbreviation file_step :=
  (walk_file include_patterns max_files max_chars max_tokens enc spec base_dir
     explicit_files_abs).
Local Abbreviation files_loop :=
  (walk_files include_patterns max_files max_chars max_tokens enc spec base_dir
     explicit_files_abs).
Local Abbreviation dir_step :=
  (walk_dir include_patterns max_files max_chars max_tokens enc spec base_dir
     explicit_files_abs).
Local Abbreviation walk_loop :=
  (walk include_patterns max_files max_chars max_tokens enc spec base_dir
     explicit_files_abs).
Local Abbreviation explicit_step :=
  (explicit_file max_files max_chars max_tokens enc base_dir).
Local Abbreviation explicit_loop :=
  (explicit_pass max_files max_chars max_tokens enc base_dir).

Lemma invariant_initial : Inv initial.
Proof.
  split; try done.
  - intros r. cbn. set_solver.
  - apply NoDup_nil_2.
  - intros h1 o h2 Hh. by destruct h1.
Qed.

Lemma invariant_print m st : Inv st → Inv (print_stderr m st).
Proof. intros []. by split. Qed.

Lemma invariant_snoc_before o st :
  (∀ h1 o h2, history st = h1 ++ o :: h2 → before_ok enc h1 o) →
  before_ok enc (history st) o →
  ∀ h1 o1 h2, history st ++ [o] = h1 ++ o1 :: h2 → before_ok enc h1 o1.
Proof.
  intros Hb Ho h1 o1 h2 [(-> & -> & _)|(h2' & _ & Hh)]%snoc_split; eauto.
Qed.

Lemma invariant_skip m o r c st :
  Inv st → Justified o → before_ok enc (history st) o →
  budget_skips [o] = [r] →
  Inv (record_skip m o r c st).
Proof.
  intros [] Hj Hb Ho.
  assert (Hna : ∀ p' r' c', o ≠ Appended p' r' c').
  { intros p' r' c' ->. discriminate Ho. }
  assert (Hs : budget_skips (history st ++ [o]) = budget_skips (history st) ++ [r]).
  { unfold budget_skips in *. by rewrite omap_app, Ho. }
  assert (Ha : appended (history st ++ [o]) = appended (history st)).
  { apply appended_snoc_skip. intros p' r' c' ->. discriminate Ho. }
  split; fields; rewrite ?tokens_of_snoc_skip by done;
    unfold blocks, labels in *; rewrite ?Ha; try done.
  - by rewrite Hs, inv_skipped0.
  - rewrite length_app. simpl. lia.
  - apply Forall_app. split; [done|]. by constructor.
  - by apply invariant_snoc_before.
Qed.

Lemma invariant_append p r c st :
  Inv st → Eligible p r c → r ∉ included_files st →
  Inv (append_file p r c (file_block r c) (len (file_block r c))
         (get_token_count (file_block r c) enc) st).
Proof.
  intros [] He Hr.
  split; fields; rewrite ?blocks_snoc_appended, ?labels_snoc_appended.
  - by rewrite inv_output0, app_assoc.
  - by rewrite len_app, inv_chars0.
  - rewrite appended_snoc, length_app. simpl. lia.
  - by rewrite tokens_of_snoc_appended, inv_tokens0.
  - intros r'. rewrite elem_of_union, elem_of_singleton, elem_of_app,
      list_elem_of_singleton, inv_included0. tauto.
  - apply NoDup_app. split; [done|]. split.
    + intros r' Hr' ->%list_elem_of_singleton. by apply Hr, inv_included0.
    + apply NoDup_singleton.
  - rewrite budget_skips_snoc. by rewrite app_nil_r.
  - done.
  - apply Forall_app. split; [done|]. by constructor.
  - by apply invariant_snoc_before.
Qed.

Lemma exceeds_true limit v :
  exceeds limit v = true → ∃ m, limit = Some m ∧ v > m.
Proof.
  destruct limit as [m|]; simpl; [|done].
  intros ?%bool_decide_eq_true. eauto.
Qed.

Lemma invariant_step p r c st :
  Inv st → Eligible p r c → r ∉ included_files st →
  Inv (step p r c st).1.
Proof.
  intros Hi He Hr. unfold add_or_skip.
  destruct (exceeds max_chars _) eqn:Hc; simpl.
  { apply invariant_skip; [done| | |done].
    - split; [done|]. by apply exceeds_true.
    - by destruct Hi. }
  destruct (exceeds max_tokens _) eqn:Ht; simpl.
  { apply invariant_skip; [done| | |done].
    - split; [done|]. by apply exceeds_true.
    - by destruct Hi. }
  by apply invariant_append.
Qed.

Lemma invariant_read p r st :
  Inv st → (∀ c, open_read p = Some c → Eligible p r c) →
  r ∉ included_files st →
  Inv (read_step p r st).1.
Proof.
  intros Hi He Hr. unfold read_then_add.
  destruct (open_read p) as [c|]; simpl.
  - apply invariant_step; auto.
  - by apply invariant_print.
Qed.

Lemma invariant_file_step dirpath filename st :
  Inv st → Inv (file_step dirpath filename st).1.
Proof.
  intros Hi. unfold walk_file.
  destruct (excluded_name _) eqn:Hx; [done|].
  destruct (should_ignore _ _ && _) eqn:Hg; [by apply invariant_print|].
  destruct (bool_decide (_ ∈ included_files st)) eqn:Hin; [done|].
  apply bool_decide_eq_false in Hin.
  destruct (negb (matches_include_patterns _ _) && _) eqn:Hm; [done|].
  apply invariant_read; [done| |done].
  intros c Hc. split; [done|]. split; [done|]. split.
  - apply andb_false_iff in Hm as [Hm|Hm].
    + left. by apply negb_false_iff.
    + right. apply negb_false_iff in Hm. by apply bool_decide_eq_true in Hm.
  - intros Hs. rewrite Hs in Hg. simpl in Hg.
    apply negb_false_iff in Hg. by apply bool_decide_eq_true in Hg.
Qed.

Lemma invariant_files_loop dirpath filenames st :
  Inv st → Inv (files_loop dirpath filenames st).
Proof.
  revert st. induction filenames as [|f fs IH]; intros st Hi; simpl; [done|].
  pose proof (invariant_file_step dirpath f st Hi) as Hf.
  destruct (file_step dirpath f st) as [st' []]; simpl in *; auto.
Qed.

Lemma invariant_prints {B} (g : B → message) (l : list B) st :
  Inv st → Inv (foldl (fun st x => print_stderr (g x) st) st l).
Proof.
  revert st. induction l as [|x l IH]; intros st Hi; simpl; [done|].
  by apply IH, invariant_print.
Qed.

Lemma invariant_dir_step v st : Inv st → Inv (dir_step v st).
Proof.
  intros Hi. destruct v as [[dirpath dirnames] filenames]. unfold walk_dir.
  apply invariant_files_loop.
  by apply (invariant_prints (fun d => InfoSkipDir (rel_dir_path_of _ d))).
Qed.

Lemma invariant_walk st : Inv st → Inv (walk_loop st).
Proof.
  unfold walk. generalize (os_walk (prune spec base_dir) base_dir cwd_tree).
  intros vs. revert st. induction vs as [|v vs IH]; intros st Hi; simpl; [done|].
  by apply IH, invariant_dir_step.
Qed.

(** *** Nothing is forgotten *)

Local Abbreviation Settled := (settled max_files max_chars max_tokens).

Lemma grows_refl st : grows st st.
Proof. unfold grows. repeat split; (done || lia). Qed.

Lemma grows_trans st1 st2 st3 : grows st1 st2 → grows st2 st3 → grows st1 st3.
Proof.
  unfold grows. intros (?&?&?&?&?) (?&?&?&?&?).
  split_and!; [by etrans|by etrans|lia..].
Qed.

Lemma grows_print m st : grows st (print_stderr m st).
Proof. unfold grows. fields. repeat split; (done || lia). Qed.

Lemma grows_step p r c st : grows st (step p r c st).1.
Proof.
  unfold add_or_skip, grows.
  pose proof (len_nonneg (file_block r c)).
  pose proof (Nat2Z.is_nonneg (length (enc (file_block r c)))).
  unfold get_token_count.
  repeat destruct (exceeds _ _); fields; split_and!;
    try (done || lia || reflexivity || apply union_subseteq_r);
    intros x ?; apply elem_of_app; by left.
Qed.

Lemma grows_read p r st : grows st (read_step p r st).1.
Proof.
  unfold read_then_add. destruct (open_read p); simpl.
  - apply grows_step.
  - apply grows_print.
Qed.

Lemma grows_file_step dirpath filename st :
  grows st (file_step dirpath filename st).1.
Proof.
  unfold walk_file.
  repeat (match goal with |- context [if ?b then _ else _] => destruct b end);
    simpl; auto using grows_refl, grows_print, grows_read.
Qed.

Lemma grows_files_loop dirpath filenames st :
  grows st (files_loop dirpath filenames st).
Proof.
  revert st. induction filenames as [|f fs IH]; intros st; simpl;
    [apply grows_refl|].
  pose proof (grows_file_step dirpath f st) as Hf.
  destruct (file_step dirpath f st) as [st' []]; simpl in *; [done|].
  eapply grows_trans; [exact Hf|apply IH].
Qed.

Lemma grows_prints {B} (g : B → message) (l : list B) st :
  grows st (foldl (fun st x => print_stderr (g x) st) st l).
Proof.
  revert st. induction l as [|x l IH]; intros st; simpl; [apply grows_refl|].
  eapply grows_trans; [apply (grows_print (g x))|apply IH].
Qed.

Lemma grows_dir_step v st : grows st (dir_step v st).
Proof.
  destruct v as [[dirpath dirnames] filenames]. unfold walk_dir.
  eapply grows_trans; [|apply grows_files_loop].
  apply (grows_prints (fun d => InfoSkipDir (rel_dir_path_of _ d))).
Qed.

Lemma grows_dirs (vs : list visit) st :
  grows st (foldl (fun st v => dir_step v st) st vs).
Proof.
  revert st. induction vs as [|v vs IH]; intros st; simpl; [apply grows_refl|].
  eapply grows_trans; [apply grows_dir_step|apply IH].
Qed.

Lemma grows_explicit_step p st : grows st (explicit_step p st).1.
Proof.
  unfold explicit_file.
  repeat (match goal with |- context [if ?b then _ else _] => destruct b end);
    simpl; auto using grows_refl, grows_print, grows_read.
Qed.

Lemma grows_explicit_loop fs st : grows st (explicit_loop fs st).
Proof.
  revert st. induction fs as [|f fs IH]; intros st; simpl; [apply grows_refl|].
  pose proof (grows_explicit_step f st) as Hf.
  destruct (explicit_step f st) as [st' []]; simpl in *; [done|].
  eapply grows_trans; [exact Hf|apply IH].
Qed.

Lemma reached_mono st st' : grows st st' → reached st = true → reached st' = true.
Proof.
  intros (_&_&?&?&?). rewrite !reached_true.
  intros [?|[?|?]]; eauto using reaches_mono.
Qed.

Lemma settled_mono r st st' : grows st st' → Settled r st → Settled r st'.
Proof.
  intros Hg [?|[?|?]].
  - left. destruct Hg as (Hi&_). by apply Hi.
  - right; left. destruct Hg as (_&Hs&_). by apply Hs.
  - right; right. by eapply reached_mono.
Qed.

(** A [break] happens only with a limit reached. *)
Lemma step_stop p r c st :
  (step p r c st).2 = true → reached (step p r c st).1 = true.
Proof. unfold add_or_skip. by repeat destruct (exceeds _ _). Qed.

Lemma read_stop p r st :
  (read_step p r st).2 = true → reached (read_step p r st).1 = true.
Proof.
  unfold read_then_add. destruct (open_read p); [apply step_stop|done].
Qed.

Lemma file_step_stop dirpath filename st :
  (file_step dirpath filename st).2 = true →
  reached (file_step dirpath filename st).1 = true.
Proof.
  unfold walk_file.
  repeat (match goal with |- context [if ?b then _ else _] => destruct b end);
    simpl; try done; apply read_stop.
Qed.

Lemma explicit_step_stop p st :
  (explicit_step p st).2 = true → reached (explicit_step p st).1 = true.
Proof.
  unfold explicit_file.
  repeat (match goal with |- context [if ?b then _ else _] => destruct b end);
    simpl; try done; apply read_stop.
Qed.

(** A file that has its turn ends in the bundle or among the skipped. *)
Lemma step_settles p r c st :
  r ∈ included_files (step p r c st).1 ∨ r ∈ skipped_files (step p r c st).1.
Proof.
  unfold add_or_skip. repeat destruct (exceeds _ _); fields.
  - right. apply elem_of_app. right. apply list_elem_of_singleton. done.
  - right. apply elem_of_app. right. apply list_elem_of_singleton. done.
  - left. apply elem_of_union_l. by apply elem_of_singleton.
Qed.

Lemma file_step_settles dirpath filename c st :
  Eligible (os_path_join dirpath filename) (walk_label base_dir dirpath filename) c →
  walk_label base_dir dirpath filename ∈ included_files (file_step dirpath filename st).1
  ∨ walk_label base_dir dirpath filename ∈ skipped_files (file_step dirpath filename st).1.
Proof.
  unfold walk_label, walk_file. intros (Hx & Hc & Hm & Hg).
  rewrite Hx.
  destruct (should_ignore _ _) eqn:Hs; simpl.
  - rewrite (bool_decide_eq_true_2 _ (Hg eq_refl)). simpl.
    destruct (bool_decide (_ ∈ included_files st)) eqn:Hin.
    { left. by apply bool_decide_eq_true in Hin. }
    rewrite andb_false_r. unfold read_then_add. rewrite Hc. apply step_settles.
  - destruct (bool_decide (_ ∈ included_files st)) eqn:Hin.
    { left. by apply bool_decide_eq_true in Hin. }
    destruct Hm as [Hm|Hm].
    + rewrite Hm. simpl. unfold read_then_add. rewrite Hc. apply step_settles.
    + rewrite (bool_decide_eq_true_2 _ Hm), andb_false_r.
      unfold read_then_add. rewrite Hc. apply step_settles.
Qed.

Lemma files_loop_settled dirpath filenames filename c st :
  filename ∈ filenames →
  Eligible (os_path_join dirpath filename) (walk_label base_dir dirpath filename) c →
  Settled (walk_label base_dir dirpath filename) (files_loop dirpath filenames st).
Proof.
  intros Hin He. revert st.
  induction filenames as [|f fs IH]; intros st; [by apply elem_of_nil in Hin|].
  simpl.
  pose proof (file_step_stop dirpath f st) as Hstop.
  pose proof (file_step_settles dirpath filename c st He) as Hset.
  destruct (decide (filename = f)) as [->|Hne].
  - destruct (file_step dirpath f st) as [st' stop]; simpl in *.
    assert (Hs : Settled (walk_label base_dir dirpath f) st').
    { destruct Hset; [by left|by right; left]. }
    destruct stop; [done|].
    eapply settled_mono; [apply grows_files_loop|done].
  - apply elem_of_cons in Hin as [?|Hin]; [done|].
    destruct (file_step dirpath f st) as [st' stop]; simpl in *.
    destruct stop; [|by apply IH].
    right; right. by apply Hstop.
Qed.

Lemma dirs_settled (vs : list visit) dirpath dirnames filenames filename c st :
  (dirpath, dirnames, filenames) ∈ vs →
  filename ∈ filenames →
  Eligible (os_path_join dirpath filename) (walk_label base_dir dirpath filename) c →
  Settled (walk_label base_dir dirpath filename)
    (foldl (fun st v => dir_step v st) st vs).
Proof.
  intros Hv Hf He. revert st.
  induction vs as [|v vs IH]; intros st; [by apply elem_of_nil in Hv|].
  simpl. apply elem_of_cons in Hv as [<-|Hv]; [|by apply IH].
  eapply settled_mono; [apply grows_dirs|].
  unfold walk_dir. by eapply files_loop_settled.
Qed.

Lemma explicit_step_settles p c st :
  excluded_name (explicit_label base_dir p) = false →
  Path_is_file p = true →
  open_read p = Some c →
  explicit_label base_dir p ∈ included_files (explicit_step p st).1
  ∨ explicit_label base_dir p ∈ skipped_files (explicit_step p st).1.
Proof.
  unfold explicit_label, explicit_file. intros -> -> Hc. simpl.
  destruct (bool_decide (_ ∈ included_files st)) eqn:Hin.
  { left. by apply bool_decide_eq_true in Hin. }
  unfold read_then_add. rewrite Hc. apply step_settles.
Qed.

Lemma explicit_loop_settled fs p c st :
  p ∈ fs →
  excluded_name (explicit_label base_dir p) = false →
  Path_is_file p = true →
  open_read p = Some c →
  Settled (explicit_label base_dir p) (explicit_loop fs st).
Proof.
  intros Hin Hx Hf Hc. revert st.
  induction fs as [|f fs IH]; intros st; [by apply elem_of_nil in Hin|].
  simpl.
  pose proof (explicit_step_stop f st) as Hstop.
  pose proof (explicit_step_settles p c st Hx Hf Hc) as Hset.
  destruct (decide (p = f)) as [->|Hne].
  - destruct (explicit_step f st) as [st' stop]; simpl in *.
    assert (Hs : Settled (explicit_label base_dir f) st').
    { destruct Hset; [by left|by right; left]. }
    destruct stop; [done|].
    eapply settled_mono; [apply grows_explicit_loop|done].
  - apply elem_of_cons in Hin as [?|Hin]; [done|].
    destruct (explicit_step f st) as [st' stop]; simpl in *.
    destruct stop; [|by apply IH].
    right; right. by apply Hstop.
Qed.

(** *** The second loop keeps the invariant *)

Variable explicit_files : list str.
Hypothesis explicit_abs :
  ∀ p, p ∈ explicit_files → Path_resolve p ∈ explicit_files_abs.

Lemma invariant_explicit_step p st :
  p ∈ explicit_files → Inv st → Inv (explicit_step p st).1.
Proof using explicit_abs.
  intros Hp Hi. unfold explicit_file.
  destruct (excluded_name _) eqn:Hx; [done|].
  case_bool_decide as Hin; [exact Hi|].
  destruct (negb (Path_is_file p)); [by apply invariant_print|].
  apply invariant_read; [done| |done].
  intros c Hc. repeat split; auto.
Qed.

Lemma invariant_explicit_loop fs st :
  fs ⊆ explicit_files → Inv st → Inv (explicit_loop fs st).
Proof using explicit_abs.
  revert st. induction fs as [|f fs IH]; intros st Hfs Hi; simpl; [done|].
  assert (Hf : f ∈ explicit_files) by set_solver.
  pose proof (invariant_explicit_step f st Hf Hi) as Hs.
  destruct (explicit_step f st) as [st' []]; simpl in *; [done|].
  apply IH; [set_solver|done].
Qed.

Lemma invariant_collected :
  Inv (collected include_patterns explicit_files max_files max_chars
         max_tokens enc spec base_dir explicit_files_abs).
Proof using explicit_abs.
  unfold collected. apply invariant_explicit_loop; [done|].
  apply invariant_walk, invariant_initial.
Qed.

End Invariants.

(* ===================================================================== *)
(** ** The directories the walk visits *)

Lemma tree_induction (P : tree → Prop) :
  (∀ dirs files, Forall (fun e => P e.2) dirs → P (Node dirs files)) →
  ∀ t, P t.
Proof.
  intros IH. fix go 1. intros [dirs files]. apply IH.
  induction dirs as [|e ds IHds]; constructor; [apply go|apply IHds].
Qed.

Lemma wf_tree_node dirs files :
  wf_tree (Node dirs files) →
  NoDup dirs.*1 ∧ Forall (fun e => wf_tree e.2) dirs.
Proof.
  intros [Hn Hall]. split; [done|]. clear Hn.
  induction dirs as [|e ds IH]; constructor; [apply Hall|apply IH, Hall].
Qed.

Lemma list_remove_in {A} (key : A → str) name (l : list A) e :
  e ∈ list_remove key name l → e ∈ l.
Proof.
  induction l as [|e0 l IH]; simpl; [done|].
  destruct (decide (key e0 = name)); rewrite !elem_of_cons; [auto|].
  intros [?|?]; auto.
Qed.

Lemma list_remove_gone {A} (key : A → str) name (l : list A) e :
  NoDup (key <$> l) → e ∈ list_remove key name l → key e ≠ name.
Proof.
  induction l as [|e0 l IH]; simpl; [by intros _ ?%elem_of_nil|].
  intros [Hnot Hnd]%NoDup_cons.
  destruct (decide (key e0 = name)) as [<-|Hne].
  - intros He Heq. apply Hnot. rewrite <- Heq. by apply list_elem_of_fmap_2.
  - intros [->|He]%elem_of_cons; auto.
Qed.

Lemma removals_in {A} (key : A → str) (names : list str) (l : list A) e :
  e ∈ foldl (fun l dirname => list_remove key dirname l) l names → e ∈ l.
Proof.
  revert l. induction names as [|n names IH]; intros l; simpl; [done|].
  intros He%IH. by eapply list_remove_in.
Qed.

Lemma list_remove_sublist {A} (key : A → str) name (l : list A) :
  sublist (list_remove key name l) l.
Proof.
  induction l as [|e l IH]; simpl; [done|].
  destruct (decide (key e = name)); [by apply sublist_cons|by apply sublist_skip].
Qed.

Lemma list_remove_NoDup {A} (key : A → str) name (l : list A) :
  NoDup (key <$> l) → NoDup (key <$> list_remove key name l).
Proof.
  intros Hnd. eapply sublist_NoDup; [exact Hnd|].
  apply fmap_sublist, list_remove_sublist.
Qed.

Lemma removals_gone {A} (key : A → str) (names : list str) (l : list A) e :
  NoDup (key <$> l) →
  e ∈ foldl (fun l dirname => list_remove key dirname l) l names →
  key e ∉ names.
Proof.
  revert l. induction names as [|n names IH]; intros l Hnd He; simpl in He.
  { apply not_elem_of_nil. }
  apply not_elem_of_cons. split.
  - apply removals_in in He. by eapply list_remove_gone.
  - eapply IH; [|exact He]. by apply list_remove_NoDup.
Qed.

Section Pruning.
Context `{Platform}.
Variable spec : str -> bool.
Variable base_dir : str.

(** What the edit of [dirnames] leaves was there before, and is not
    [.git]. *)
Lemma prune_in {A} (key : A → str) dirpath (l : list A) e :
  NoDup (key <$> l) → e ∈ prune spec base_dir A key dirpath l →
  e ∈ l ∧ key e ≠ lit ".git".
Proof.
  intros Hnd He. unfold prune, without_git in He. apply removals_in in He.
  destruct (bool_decide (lit ".git" ∈ key <$> l)) eqn:Hg.
  - split; [by eapply list_remove_in|by eapply list_remove_gone].
  - split; [done|]. apply bool_decide_eq_false in Hg.
    intros Heq. apply Hg. rewrite <- Heq. by apply list_elem_of_fmap_2.
Qed.

(** The edit of [dirnames] looks at the names only: it commutes with
    whatever hangs below them. *)
Lemma list_remove_fmap {A B} (key : B → str) (f : A → B) name (l : list A) :
  list_remove key name (f <$> l) = f <$> list_remove (key ∘ f) name l.
Proof.
  induction l as [|e l IH]; [done|]. rewrite fmap_cons. cbn [list_remove].
  unfold compose at 1. destruct (decide (key (f e) = name)); [done|].
  by rewrite IH, fmap_cons.
Qed.

Lemma removals_fmap {A B} (key : B → str) (f : A → B) names (l : list A) :
  foldl (fun l dirname => list_remove key dirname l) (f <$> l) names
  = f <$> foldl (fun l dirname => list_remove (key ∘ f) dirname l) l names.
Proof.
  revert l. induction names as [|n names IH]; intros l; [done|].
  cbn [foldl]. by rewrite list_remove_fmap, IH.
Qed.

Lemma prune_fmap {A B} (key : B → str) (f : A → B) dirpath (l : list A) :
  prune spec base_dir B key dirpath (f <$> l)
  = f <$> prune spec base_dir A (key ∘ f) dirpath l.
Proof.
  unfold prune, without_git. rewrite <- list_fmap_compose.
  destruct (bool_decide _).
  - by rewrite list_remove_fmap, removals_fmap, <- list_fmap_compose.
  - by rewrite removals_fmap, <- list_fmap_compose.
Qed.

Lemma removals_sublist {A} (key : A → str) names (l : list A) :
  sublist (foldl (fun l dirname => list_remove key dirname l) l names) l.
Proof.
  revert l. induction names as [|n names IH]; intros l; [done|].
  cbn [foldl]. etrans; [apply IH|]. apply list_remove_sublist.
Qed.

Lemma prune_sublist {A} (key : A → str) dirpath (l : list A) :
  sublist (prune spec base_dir A key dirpath l) l.
Proof.
  unfold prune. etrans; [apply removals_sublist|].
  unfold without_git. destruct (bool_decide _); [|done].
  apply list_remove_sublist.
Qed.

(** The walk of a directory: its own visit, then the walks of the entries
    the edit of [dirnames] leaves, in order; those are entries of the
    directory and, the names being distinct, none of them is [.git]. *)
Lemma os_walk_node top dirs files :
  let kept := prune spec base_dir _ fst top dirs in
  os_walk (prune spec base_dir) top (Node dirs files)
  = (top, dirs.*1, files)
    :: concat ((fun e => os_walk (prune spec base_dir) (os_path_join top e.1) e.2)
                 <$> kept)
  ∧ sublist kept dirs
  ∧ (NoDup dirs.*1 → Forall (fun e => e.1 ≠ lit ".git") kept).
Proof.
  intros kept. split_and!.
  - cbn [os_walk]. f_equal. f_equal.
    change (List.map ?f dirs) with (f <$> dirs).
    rewrite prune_fmap, <- list_fmap_compose.
    by apply list_fmap_ext.
  - apply prune_sublist.
  - intros Hnd. apply Forall_forall. intros e He.
    by apply (prune_in fst top dirs e Hnd).
Qed.

End Pruning.

Section Ignored.
Context `{Platform}.
Variable spec : str -> bool.
Variable base_dir : str.

(** What the edit of [dirnames] leaves is not matched by the ignore
    rules. *)
Lemma prune_unignored {A} (key : A → str) dirpath (l : list A) e :
  NoDup (key <$> l) → e ∈ prune spec base_dir A key dirpath l →
  should_ignore
    (rel_dir_path_of (rel_dir_of base_dir dirpath) (key e) ++ [slash]) spec
  = false.
Proof.
  intros Hnd He. unfold prune in He.
  assert (Hnd' : NoDup (key <$> without_git key l)).
  { unfold without_git. destruct (bool_decide _); [|done].
    by apply list_remove_NoDup. }
  pose proof (removals_gone _ _ _ _ Hnd' He) as Hgone.
  apply removals_in in He.
  destruct (should_ignore _ spec) eqn:Hs; [|done].
  exfalso. apply Hgone. unfold dirs_to_remove.
  apply list_elem_of_In, filter_In. split; [|exact Hs].
  apply list_elem_of_In. by apply list_elem_of_fmap_2.
Qed.

(** A directory other than the top is visited only as an entry of a
    visited directory that the edit of [dirnames] left there. *)
Lemma os_walk_enters_unignored t :
  ∀ top, wf_tree t →
  ∀ v, v ∈ os_walk (prune spec base_dir) top t →
  v.1.1 = top
  ∨ ∃ parent dirnames filenames name,
      (parent, dirnames, filenames) ∈ os_walk (prune spec base_dir) top t
      ∧ name ∈ dirnames
      ∧ v.1.1 = os_path_join parent name
      ∧ name ≠ lit ".git"
      ∧ should_ignore
          (rel_dir_path_of (rel_dir_of base_dir parent) name ++ [slash]) spec
        = false.
Proof.
  induction t as [dirs files IH] using tree_induction.
  intros top [Hnd Hwf]%wf_tree_node v. cbn [os_walk].
  intros [->|Hv]%elem_of_cons; [by left|]. right.
  pose proof Hv as Hv0.
  apply list_elem_of_In, in_concat in Hv as (l & Hl & Hv).
  apply list_elem_of_In, list_elem_of_fmap in Hl as (e & -> & He).
  apply list_elem_of_In in Hv.
  assert (Hnd' : NoDup (fst <$> List.map
            (fun e => (e.1, os_walk (prune spec base_dir) (os_path_join top e.1) e.2))
            dirs)).
  { rewrite <- list_fmap_compose.
    by rewrite (list_fmap_ext _ fst dirs) by done. }
  pose proof (prune_unignored fst top _ e Hnd' He) as Hun.
  pose proof (prune_in spec base_dir fst top _ e Hnd' He) as [Hin Hgit].
  apply list_elem_of_In, in_map_iff in Hin as (d & <- & Hd).
  apply list_elem_of_In in Hd. cbn [fst snd] in *.
  rewrite Forall_forall in IH, Hwf.
  destruct (IH d Hd (os_path_join top d.1) (Hwf d Hd) v Hv)
    as [Hroot|(parent & dn & fn & name & Hp & Hn & Hrest)].
  - exists top, dirs.*1, files, d.1. split_and!; try done.
    + apply elem_of_cons. by left.
    + by apply list_elem_of_fmap_2.
  - exists parent, dn, fn, name. split; [|done].
    apply elem_of_cons. right. apply list_elem_of_In, in_concat.
    eexists. split; [|apply list_elem_of_In, Hp].
    apply list_elem_of_In, list_elem_of_fmap.
    eexists. split; [|exact He]. done.
Qed.

End Ignored.

Lemma excluded_name_false rel :
  excluded_name rel = false →
  rel ≠ lit ".gitignore" ∧ startswith (lit ".git/") rel = false.
Proof.
  unfold excluded_name. intros [Hg Hs]%orb_false_iff.
  by apply bool_decide_eq_false in Hg.
Qed.

(* ===================================================================== *)
(** ** Properties of a whole run *)

Section Run.
Context `{Platform} `{Tools}.
Variables include_patterns explicit_files : list str.
Variables max_files max_chars max_tokens : option Z.
Variable enc : encoding.

Local Abbreviation final :=
  (run include_patterns explicit_files max_files max_chars max_tokens enc).
Local Abbreviation result :=
  (collect_file_contents include_patterns explicit_files max_files max_chars
     max_tokens enc).
Local Abbreviation abs_set :=
  (list_to_set (Path_resolve <$> explicit_files) : gset str).

Lemma explicit_in_abs_set p : p ∈ explicit_files → Path_resolve p ∈ abs_set.
Proof. intros Hp. apply elem_of_list_to_set, list_elem_of_fmap. eauto. Qed.

Lemma run_invariant :
  invariant include_patterns max_chars max_tokens enc load_gitignore abs_set final.
Proof. apply invariant_collected, explicit_in_abs_set. Qed.

Lemma run_bundle :
  result.1 = code_sample_open ++ concat (blocks (history final))
             ++ code_sample_close.
Proof.
  destruct run_invariant. unfold collect_file_contents. cbn [fst].
  by rewrite inv_output0, <- app_assoc.
Qed.

(** C10: the bundle is as long as [chars_copied] plus the opening line and
    the closing delimiter, 14 characters each, and [chars_copied] is the
    total length of the fenced blocks appended. *)
Theorem C10_bundle_length :
  len result.1 = chars_copied result.2 + 14 + 14
  ∧ len code_sample_open = 14
  ∧ len code_sample_close = 14
  ∧ result.1 = code_sample_open ++ concat (blocks (history final))
               ++ code_sample_close
  ∧ chars_copied result.2 = len (concat (blocks (history final))).
Proof.
  destruct run_invariant. unfold collect_file_contents. cbn [fst snd summary_of chars_copied].
  rewrite inv_output0, inv_chars0, <- !app_assoc, !len_app.
  rewrite code_sample_open_len, code_sample_close_len.
  repeat split; lia.
Qed.

(** C9: [files_skipped] is the length of [skipped_files]; the entries of
    [skipped_files] are, in order, the files one of the two budget checks
    turned away, and each of those was readable, matched or explicit, and
    over the limit when added to the total of the blocks appended before
    it. A file that fails to open or does not match leaves no entry. *)
Theorem C9_summary_consistent :
  files_skipped result.2 = Z.of_nat (length (skipped result.2))
  ∧ skipped result.2 = budget_skips (history final)
  ∧ Forall (justified include_patterns max_chars max_tokens enc load_gitignore
              abs_set) (history final)
  ∧ (∀ h1 o h2, history final = h1 ++ o :: h2 → before_ok enc h1 o)
  ∧ (max_chars = None ∧ max_tokens = None → skipped result.2 = []).
Proof.
  destruct run_invariant. unfold collect_file_contents.
  cbn [fst snd summary_of files_skipped skipped].
  repeat split; try done.
  intros [Hc Ht]. rewrite inv_skipped0.
  clear -inv_justified0 Hc Ht.
  induction inv_justified0 as [|o h Ho _ IH]; [done|].
  destruct o as [p r c|p r c b|p r c b]; simpl in *; [done| |].
  - destruct Ho as (_ & m & Hm & _). congruence.
  - destruct Ho as (_ & m & Hm & _). congruence.
Qed.

(** C2: the bundle is the opening line, the fenced blocks appended and the
    closing delimiter, and no two of those blocks carry the same relative
    path, whatever patterns a path matches and whether or not it is also in
    the explicit list. *)
Theorem C2_one_block_per_path :
  result.1 = code_sample_open ++ concat (blocks (history final))
             ++ code_sample_close
  ∧ Forall2 (fun block rel => ∃ content, block = file_block rel content)
      (blocks (history final)) (labels (history final))
  ∧ NoDup (labels (history final)).
Proof.
  split_and!; [apply run_bundle|apply blocks_labelled|].
  by destruct run_invariant.
Qed.

(** C8: whatever the ignore rules are, [.git] is pruned from the traversal.
    At every directory the walk yields the directory itself and then descends
    into exactly the entries the edit of [dirnames] leaves; those are entries
    of the directory and, names being distinct, none of them is [.git]. So
    every directory visited, the working directory apart, is an entry of a
    visited directory under a name other than [.git]. And no fenced block of
    the bundle is labelled [.gitignore] or with a path that starts with
    [.git/], be the file matched by a pattern or listed as explicit. *)
Theorem C8_git_and_ignore_file_excluded :
  wf_tree cwd_tree →
  (∀ spec top dirs files,
     let kept := prune spec Path_cwd _ fst top dirs in
     os_walk (prune spec Path_cwd) top (Node dirs files)
     = (top, dirs.*1, files)
       :: concat ((fun e => os_walk (prune spec Path_cwd)
                              (os_path_join top e.1) e.2) <$> kept)
     ∧ sublist kept dirs
     ∧ (NoDup dirs.*1 → Forall (fun e => e.1 ≠ lit ".git") kept))
  ∧ (∀ spec v,
       v ∈ os_walk (prune spec Path_cwd) Path_cwd cwd_tree →
       v.1.1 = Path_cwd
       ∨ ∃ parent dirnames filenames name,
           (parent, dirnames, filenames)
             ∈ os_walk (prune spec Path_cwd) Path_cwd cwd_tree
           ∧ name ∈ dirnames
           ∧ name ≠ lit ".git"
           ∧ v.1.1 = os_path_join parent name)
  ∧ Forall (fun rel => rel ≠ lit ".gitignore"
                       ∧ startswith (lit ".git/") rel = false)
      (labels (history final))
  ∧ Forall2 (fun block rel => ∃ content, block = file_block rel content)
      (blocks (history final)) (labels (history final))
  ∧ result.1 = code_sample_open ++ concat (blocks (history final))
               ++ code_sample_close.
Proof.
  intros Hwf. split_and!.
  - intros spec top dirs files. apply os_walk_node.
  - intros spec v Hv.
    destruct (os_walk_enters_unignored spec Path_cwd cwd_tree Path_cwd Hwf v Hv)
      as [Htop|(parent & dn & fn & name & Hp & Hn & Hj & Hg & _)]; [by left|].
    right. by exists parent, dn, fn, name.
  - destruct run_invariant. unfold labels.
    apply Forall_fmap, Forall_forall. intros [[p r] c] Ha.
    apply excluded_name_false.
    rewrite Forall_forall in inv_justified0.
    unfold appended in Ha. apply list_elem_of_omap in Ha as (o & Ho & Heq).
    destruct o; simplify_eq. by destruct (inv_justified0 _ Ho) as (? & _).
  - apply blocks_labelled.
  - apply run_bundle.
Qed.

(** C5 (amended): a fenced block whose label the ignore rules match comes
    from a file whose resolved absolute path is in the explicit set, so a
    glob pattern alone never brings an ignored file in. Conversely an
    ignore-matched file the walk meets that is explicit, readable and not one
    of the excluded names ends in the bundle, or among the files skipped for
    the character or token budget, or the run ends with a limit reached; and
    so does every existing, readable entry of the explicit list, whether or
    not the walk visits its directory. *)
Theorem C5_ignored_only_when_explicit :
  Forall (fun a => should_ignore a.1.2 load_gitignore = true →
                   Path_resolve a.1.1 ∈ abs_set)
    (appended (history final))
  ∧ (∀ dirpath dirnames filenames filename content,
       (dirpath, dirnames, filenames)
         ∈ os_walk (prune load_gitignore Path_cwd) Path_cwd cwd_tree →
       filename ∈ filenames →
       should_ignore (walk_label Path_cwd dirpath filename) load_gitignore = true →
       Path_resolve (os_path_join dirpath filename) ∈ abs_set →
       excluded_name (walk_label Path_cwd dirpath filename) = false →
       open_read (os_path_join dirpath filename) = Some content →
       walk_label Path_cwd dirpath filename ∈ labels (history final)
       ∨ walk_label Path_cwd dirpath filename ∈ skipped result.2
       ∨ limits_reached max_files max_chars max_tokens final = true)
  ∧ (∀ file_path content,
       file_path ∈ explicit_files →
       excluded_name (explicit_label Path_cwd file_path) = false →
       Path_is_file file_path = true →
       open_read file_path = Some content →
       explicit_label Path_cwd file_path ∈ labels (history final)
       ∨ explicit_label Path_cwd file_path ∈ skipped result.2
       ∨ limits_reached max_files max_chars max_tokens final = true).
Proof.
  pose proof run_invariant as Hinv. destruct Hinv.
  assert (Hset : ∀ r,
    settled max_files max_chars max_tokens r final →
    r ∈ labels (history final) ∨ r ∈ skipped result.2
    ∨ limits_reached max_files max_chars max_tokens final = true).
  { intros r [?|[?|?]]; [left; by apply inv_included0|by right; left|by right; right]. }
  split; [|split].
  - apply Forall_forall. intros [[p r] c] Ha.
    rewrite Forall_forall in inv_justified0.
    unfold appended in Ha. apply list_elem_of_omap in Ha as (o & Ho & Heq).
    destruct o; simplify_eq.
    by destruct (inv_justified0 _ Ho) as (_ & _ & _ & ?).
  - intros dirpath dirnames filenames filename content Hv Hf Hs Ha Hx Hc.
    apply Hset. unfold run, collected.
    eapply settled_mono; [apply grows_explicit_loop|].
    unfold walk. eapply dirs_settled; [exact Hv|exact Hf|].
    repeat split; eauto.
  - intros file_path content Hin Hx Hf Hc.
    apply Hset. unfold run, collected.
    by eapply explicit_loop_settled.
Qed.

End Run.

(* ===================================================================== *)
(** ** The budget checks *)

Lemma exceeds_above limit value : exceeds limit value = true ↔ above limit value.
Proof.
  unfold exceeds, above. destruct limit as [m|].
  - rewrite bool_decide_eq_true. split.
    + intros Hgt. exists m. split; [done|lia].
    + intros (m' & [= <-] & Hlt). lia.
  - split; [done|]. by intros (m' & ? & _).
Qed.

Lemma reaches_reached limit value :
  reaches limit value = true ↔ reached_limit limit value.
Proof.
  unfold reaches, reached_limit. destruct limit as [m|].
  - rewrite bool_decide_eq_true. split.
    + intros Hge. exists m. split; [done|lia].
    + intros (m' & [= <-] & Hle). lia.
  - split; [done|]. by intros (m' & ? & _).
Qed.

Lemma limits_reached_stops max_files max_chars max_tokens st :
  limits_reached max_files max_chars max_tokens st = true
  ↔ stops max_files max_chars max_tokens st.
Proof.
  unfold limits_reached, stops. rewrite <- !reaches_reached.
  destruct (reaches max_files _), (reaches max_chars _), (reaches max_tokens _);
    intuition discriminate.
Qed.

Section Budget.
Context `{Platform} `{Tools}.
Variable include_patterns : list str.
Variables max_files max_chars max_tokens : option Z.
Variable enc : encoding.
Variable spec : str -> bool.
Variable base_dir : str.
Variable explicit_files_abs : gset str.

Local Abbreviation step := (add_or_skip max_files max_chars max_tokens enc).
Local Abbreviation Order := (budget_order max_files max_chars max_tokens enc).

(** What either loop does with a file once its text is read. *)
Lemma step_budget_order p r c st (continue : state → state) :
  Order r c st continue
    (if (step p r c st).2 then (step p r c st).1 else continue (step p r c st).1).
Proof.
  unfold budget_order, add_or_skip, get_token_count. cbv zeta.
  rewrite <- !exceeds_above.
  destruct (exceeds max_chars _); [|destruct (exceeds max_tokens _)];
    cbn [fst snd]; split_and!; try (intros; congruence); intros.
  - eexists. split; [|reflexivity]. by repeat split.
  - eexists. split; [|reflexivity]. by repeat split.
  - set (st' := append_file _ _ _ _ _ _ _). exists st'.
    split; [by repeat split|]. rewrite <- limits_reached_stops.
    destruct (limits_reached _ _ _ _); split; intros; congruence.
Qed.

Lemma walk_file_candidate dirpath filename content st :
  walk_candidate include_patterns spec base_dir explicit_files_abs dirpath
    filename content st →
  walk_file include_patterns max_files max_chars max_tokens enc spec base_dir
    explicit_files_abs dirpath filename st
  = step (os_path_join dirpath filename) (walk_label base_dir dirpath filename)
      content st.
Proof.
  unfold walk_candidate, walk_label, walk_file.
  intros (Hx & Hg & Hin & Hm & Hc). rewrite Hx.
  rewrite (bool_decide_eq_false_2 _ Hin).
  unfold read_then_add. rewrite Hc.
  destruct (should_ignore _ _) eqn:Hs; cbn [andb].
  - rewrite (bool_decide_eq_true_2 _ (Hg eq_refl)). cbn [negb].
    by rewrite andb_false_r.
  - destruct Hm as [->|Hm]; [done|].
    rewrite (bool_decide_eq_true_2 _ Hm). cbn [negb]. by rewrite andb_false_r.
Qed.

Lemma explicit_file_candidate file_path content st :
  explicit_candidate base_dir file_path content st →
  explicit_file max_files max_chars max_tokens enc base_dir file_path st
  = step file_path (explicit_label base_dir file_path) content st.
Proof.
  unfold explicit_candidate, explicit_label, explicit_file.
  intros (Hx & Hin & Hf & Hc). rewrite Hx, Hf.
  rewrite (bool_decide_eq_false_2 _ Hin).
  unfold read_then_add. by rewrite Hc.
Qed.


End Budget.

(* ===================================================================== *)
(** ** The copy command *)

Section Copying.
Context `{Platform} `{Tools}.

Lemma files_added_count include_patterns explicit_files max_files max_chars
    max_tokens enc :
  total_files_added
    (run include_patterns explicit_files max_files max_chars max_tokens enc)
  = Z.of_nat (length (appended (history
      (run include_patterns explicit_files max_files max_chars max_tokens enc)))).
Proof. by destruct (run_invariant include_patterns explicit_files max_files
                      max_chars max_tokens enc). Qed.

(** With nothing configured nothing is collected. *)
Lemma nothing_configured max_files max_chars max_tokens enc :
  total_files_added (run [] [] max_files max_chars max_tokens enc) = 0.
Proof.
  rewrite files_added_count.
  destruct (run_invariant [] [] max_files max_chars max_tokens enc)
    as [_ _ _ _ _ _ _ _ Hj _].
  destruct (appended _) as [|[[p r] c] l] eqn:Ha; [done|]. exfalso.
  assert (Hin : (p, r, c) ∈ appended (history
            (run [] [] max_files max_chars max_tokens enc))).
  { rewrite Ha. apply elem_of_cons. by left. }
  unfold appended in Hin. apply list_elem_of_omap in Hin as (o & Ho & Heq).
  rewrite Forall_forall in Hj. specialize (Hj o Ho).
  destruct o; simplify_eq. destruct Hj as (_ & _ & [Hm|Hm] & _).
  - discriminate Hm.
  - by apply elem_of_empty in Hm.
Qed.

Lemma no_clipboard_in_log (ms : list message) :
  clipboard_written (Collecting <$> ms) = false
  ∧ error_printed (Collecting <$> ms) = false.
Proof. induction ms as [|m ms [IH1 IH2]]; [done|]. by rewrite fmap_cons. Qed.

(** The tokenizer [perform_copy] ends up with. *)
Lemma perform_copy_unfold (a : args) (fs : Config.files) :
  let config := Config.load_config fs in
  let enc := default cl100k_base (encoding_for_model (arg_model a)) in
  let r := collect_file_contents (Config.include_patterns config)
             (Config.explicit_files config) (arg_max_files a)
             (arg_max_chars a) (arg_max_tokens a) enc in
  perform_copy a fs = [ErrNoPatterns]
  ∧ Config.include_patterns config = [] ∧ Config.explicit_files config = []
  ∨ (∃ pre, clipboard_written pre = false ∧ error_printed pre = false
       ∧ (perform_copy a fs = pre ++ [ErrNoFiles] ∧ files_added r.2 = 0
          ∨ (∃ post, perform_copy a fs = pre ++ ClipboardCopy r.1 :: post
                     ∧ error_printed post = false)
            ∧ files_added r.2 ≠ 0)).
Proof.
  intros config enc r. unfold perform_copy. fold config.
  destruct (bool_decide (Config.include_patterns config = [])
            && bool_decide (Config.explicit_files config = [])) eqn:Hcfg.
  { left. apply andb_true_iff in Hcfg as [H1%bool_decide_eq_true H2%bool_decide_eq_true].
    done. }
  right.
  assert (Hpre : ∀ warn : list effect,
            (warn = [] ∨ warn = [WarnModelNotFound (arg_model a)]) →
            ∀ ms, clipboard_written (warn ++ (Collecting <$> ms)) = false
                  ∧ error_printed (warn ++ (Collecting <$> ms)) = false).
  { intros warn Hw ms. unfold clipboard_written, error_printed.
    rewrite !existsb_app.
    destruct (no_clipboard_in_log ms) as [H1 H2].
    unfold clipboard_written, error_printed in H1, H2. rewrite H1, H2.
    by destruct Hw as [-> | ->]. }
  subst r enc.
  destruct (encoding_for_model (arg_model a)) as [e|]; cbn [default].
  - exists ([] ++ (Collecting <$> stderr
      (run (Config.include_patterns config) (Config.explicit_files config)
         (arg_max_files a) (arg_max_chars a) (arg_max_tokens a) e))).
    split; [|split]; [apply Hpre; auto..|].
    unfold collect_file_contents; cbn [fst snd].
    destruct (bool_decide (files_added _ = 0)) eqn:Hz.
    + apply bool_decide_eq_true in Hz. left. split; [by rewrite app_assoc|done].
    + apply bool_decide_eq_false in Hz. right. split; [|done].
      eexists. split; [by rewrite app_assoc|].
      unfold token_note; repeat case_match; done.
  - exists ([WarnModelNotFound (arg_model a)] ++ (Collecting <$> stderr
      (run (Config.include_patterns config) (Config.explicit_files config)
         (arg_max_files a) (arg_max_chars a) (arg_max_tokens a) cl100k_base))).
    split; [|split]; [apply Hpre; auto..|].
    unfold collect_file_contents; cbn [fst snd].
    destruct (bool_decide (files_added _ = 0)) eqn:Hz.
    + apply bool_decide_eq_true in Hz. left. split; [by rewrite app_assoc|done].
    + apply bool_decide_eq_false in Hz. right. split; [|done].
      eexists. split; [by rewrite app_assoc|].
      unfold token_note; repeat case_match; done.
Qed.

(** C4: [perform_copy] writes to the clipboard exactly when the collection
    added at least one file, and what it writes is the bundle; it prints one
    of its two error messages exactly when it does not write; with no
    pattern and no explicit file configured it prints the error and does
    nothing else. *)
Theorem C4_clipboard_iff_files_collected (a : args) (fs : Config.files) :
  let config := Config.load_config fs in
  let enc := default cl100k_base (encoding_for_model (arg_model a)) in
  let r := collect_file_contents (Config.include_patterns config)
             (Config.explicit_files config) (arg_max_files a)
             (arg_max_chars a) (arg_max_tokens a) enc in
  (clipboard_written (perform_copy a fs) = true ↔ 0 < files_added r.2)
  ∧ (clipboard_written (perform_copy a fs) = true →
     ClipboardCopy r.1 ∈ perform_copy a fs)
  ∧ (clipboard_written (perform_copy a fs) = false ↔
     error_printed (perform_copy a fs) = true)
  ∧ (Config.include_patterns config = [] ∧ Config.explicit_files config = [] →
     perform_copy a fs = [ErrNoPatterns]).
Proof.
  intros config enc r. subst config enc r.
  pose proof (perform_copy_unfold a fs) as HU. cbv zeta in HU.
  unfold collect_file_contents in *. cbn [fst snd summary_of files_added] in *.
  set (st := run _ _ _ _ _ _) in *.
  assert (Hnn : 0 <= total_files_added st).
  { subst st. rewrite files_added_count. lia. }
  assert (Hnone : Config.include_patterns (Config.load_config fs) = []
                  ∧ Config.explicit_files (Config.load_config fs) = [] →
                  perform_copy a fs = [ErrNoPatterns]).
  { intros [Hi He]. unfold perform_copy. by rewrite Hi, He. }
  destruct HU
    as [(Hp & Hi & He)|(pre & Hc & Herr & [[Hp Hz]|[(post & Hp & Hpost) Hz]])].
  - assert (Hz : total_files_added st = 0).
    { subst st. rewrite Hi, He. apply nothing_configured. }
    rewrite Hp. cbn. rewrite Hz. split_and!; try done; split; (done || lia).
  - rewrite Hp.
    unfold clipboard_written, error_printed in *.
    rewrite !existsb_app, Hc, Herr. cbn. rewrite Hz.
    split_and!; try done; try (split; (done || lia)).
    intros Hq%Hnone.
      rewrite Hq in Hp. destruct pre as [|? [|? ?]]; discriminate Hp.
  - rewrite Hp. unfold clipboard_written, error_printed in *.
    rewrite !existsb_app, Hc, Herr. cbn. rewrite Hpost.
    split_and!; try done; try (split; (done || lia)).
    + intros _. apply elem_of_app. right. apply elem_of_cons. by left.
    + intros Hq%Hnone.
      rewrite Hq in Hp. destruct pre as [|? [|? ?]]; discriminate Hp.
Qed.

End Copying.

(* ===================================================================== *)
(** ** The pattern store *)

Lemma occurrences_snoc e x l :
  occurrences e (l ++ [x])
  = (occurrences e l + if bool_decide (x = e) then 1 else 0)%nat.
Proof.
  unfold occurrences. rewrite List.filter_app, length_app. simpl.
  by destruct (bool_decide (x = e)).
Qed.

Lemma occurrences_not_in e l : e ∉ l → occurrences e l = 0%nat.
Proof.
  unfold occurrences. induction l as [|x l IH]; [done|].
  intros [Hne Hl]%not_elem_of_cons. simpl.
  rewrite bool_decide_eq_false_2 by done. by apply IH.
Qed.

Lemma occurrences_in e l : e ∈ l → (1 <= occurrences e l)%nat.
Proof.
  unfold occurrences. induction l as [|x l IH]; [by intros ?%elem_of_nil|].
  intros [->|Hl]%elem_of_cons; simpl.
  - rewrite bool_decide_eq_true_2 by done. simpl. lia.
  - destruct (bool_decide (x = e)); simpl; [lia|by apply IH].
Qed.

Lemma save_refused c fs :
  Config.can_write fs = false → Config.save_config c fs = fs.
Proof. unfold Config.save_config, Config.can_write. by intros ->. Qed.

Lemma load_saved c fs :
  Config.can_write fs = true →
  Config.load_config (Config.save_config c fs) = c.
Proof.
  unfold Config.load_config, Config.save_config, Config.can_write,
    Config.get_config_path.
  intros ->. by destruct (Config.project_config fs).
Qed.

(** What is loaded after a save: the configuration saved if the file could
    be written, what was there if not. *)
Lemma load_save c fs :
  Config.load_config (Config.save_config c fs)
  = if Config.can_write fs then c else Config.load_config fs.
Proof.
  destruct (Config.can_write fs) eqn:W.
  - by apply load_saved.
  - by rewrite save_refused.
Qed.

Lemma can_write_save c fs :
  Config.can_write (Config.save_config c fs) = Config.can_write fs.
Proof.
  destruct (Config.can_write fs) eqn:W; [|by rewrite (save_refused _ fs W)].
  revert W.
  unfold Config.save_config, Config.can_write, Config.get_config_path,
    Config.writable.
  destruct (Config.project_config fs); cbn; by intros ->.
Qed.

Lemma save_save c c' fs :
  Config.save_config c' (Config.save_config c fs) = Config.save_config c' fs.
Proof.
  destruct (Config.can_write fs) eqn:W; [|by rewrite !(save_refused _ fs W)].
  revert W.
  unfold Config.save_config, Config.can_write, Config.get_config_path,
    Config.writable.
  destruct (Config.project_config fs); cbn; intros ->; cbn; by rewrite ?W.
Qed.

Section StoreFacts.
Context `{Platform}.

(** The entry [add_patterns] stores for a pattern, and the list it goes
    to. *)
Lemma add_pattern_config pattern cfg rep :
  (Config.add_pattern pattern (cfg, rep)).1
  = if Config.is_glob_pattern (strip pattern) then
      if bool_decide (strip pattern ∈ Config.include_patterns cfg) then cfg
      else {| Config.include_patterns :=
                Config.include_patterns cfg ++ [strip pattern];
              Config.explicit_files := Config.explicit_files cfg |}
    else
      if bool_decide (Path_resolve (strip pattern) ∈ Config.explicit_files cfg)
      then cfg
      else {| Config.include_patterns := Config.include_patterns cfg;
              Config.explicit_files :=
                Config.explicit_files cfg ++ [Path_resolve (strip pattern)] |}.
Proof.
  unfold Config.add_pattern.
  destruct (Config.is_glob_pattern _).
  - destruct (decide (strip pattern ∈ Config.include_patterns cfg)) as [Hin|Hin].
    + rewrite (bool_decide_eq_true_2 _ Hin), bool_decide_eq_false_2; [done|].
      by intros ?.
    + by rewrite (bool_decide_eq_false_2 _ Hin), bool_decide_eq_true_2.
  - destruct (decide (Path_resolve (strip pattern) ∈ Config.explicit_files cfg))
      as [Hin|Hin].
    + rewrite (bool_decide_eq_true_2 _ Hin), bool_decide_eq_false_2; [done|].
      by intros ?.
    + by rewrite (bool_decide_eq_false_2 _ Hin), bool_decide_eq_true_2.
Qed.

(** Adding an entry that is stored changes nothing. *)
Lemma add_pattern_again p q cfg rep rep' :
  Config.is_glob_pattern (strip q) = Config.is_glob_pattern (strip p) →
  (if Config.is_glob_pattern (strip p) then strip q = strip p
   else Path_resolve (strip q) = Path_resolve (strip p)) →
  (Config.add_pattern q ((Config.add_pattern p (cfg, rep)).1, rep')).1
  = (Config.add_pattern p (cfg, rep)).1.
Proof.
  intros Hg He. rewrite (add_pattern_config q), Hg.
  rewrite (add_pattern_config p).
  destruct (Config.is_glob_pattern (strip p)); rewrite He.
  - destruct (bool_decide (strip p ∈ Config.include_patterns cfg)) eqn:Hin.
    + by rewrite Hin.
    + cbn [Config.include_patterns]. rewrite bool_decide_eq_true_2; [done|].
      apply elem_of_app. right. by apply list_elem_of_singleton.
  - destruct (bool_decide (Path_resolve (strip p) ∈ Config.explicit_files cfg))
      eqn:Hin.
    + by rewrite Hin.
    + cbn [Config.explicit_files]. rewrite bool_decide_eq_true_2; [done|].
      apply elem_of_app. right. by apply list_elem_of_singleton.
Qed.

Lemma add_patterns_one p fs :
  (Config.add_patterns [p] fs).1
  = Config.save_config
      (Config.add_pattern p
         (Config.load_config fs,
          {| Config.added_globs := []; Config.added_files := [] |})).1 fs.
Proof.
  unfold Config.add_patterns. cbn [foldl].
  by destruct (Config.add_pattern p _).
Qed.

Lemma add_patterns_two p q fs :
  (Config.add_patterns [p; q] fs).1
  = (Config.add_patterns [q] (Config.add_patterns [p] fs).1).1.
Proof.
  rewrite !add_patterns_one, save_save.
  unfold Config.add_patterns. cbn [foldl].
  destruct (Config.add_pattern p _) as [c1 r1]. cbn [fst].
  destruct (Config.add_pattern q (c1, r1)) as [c2 r2] eqn:E. cbn [fst].
  destruct (Config.can_write fs) eqn:W; [|by rewrite !(save_refused _ fs W)].
  rewrite load_saved by done.
  f_equal. change c2 with (c2, r2).1. rewrite <- E.
  by rewrite !add_pattern_config.
Qed.

(** C6: adding an entry twice, in one call or in two, stores what adding it
    once stores; after an addition that could be written the entry occurs
    once in its list (and as often as before if it was there several times
    already); where the file cannot be written nothing is stored and the
    configuration files are as they were; and a second spelling that
    resolves to the same absolute path adds nothing. *)
Theorem C6_add_deduplicates (fs : Config.files) (p q : str) :
  let once := (Config.add_patterns [p] fs).1 in
  let count cfg :=
    if Config.is_glob_pattern (strip p)
    then occurrences (strip p) (Config.include_patterns cfg)
    else occurrences (Path_resolve (strip p)) (Config.explicit_files cfg) in
  (Config.add_patterns [p] once).1 = once
  ∧ (Config.add_patterns [p; p] fs).1 = once
  ∧ count (Config.load_config once)
    = (if Config.can_write fs
       then Nat.max 1 (count (Config.load_config fs))
       else count (Config.load_config fs))
  ∧ (Config.can_write fs = false → once = fs)
  ∧ (Config.is_glob_pattern (strip p) = false →
     Config.is_glob_pattern (strip q) = false →
     Path_resolve (strip q) = Path_resolve (strip p) →
     (Config.add_patterns [q] once).1 = once).
Proof.
  intros once count. subst once count.
  assert (Hagain : ∀ q,
    Config.is_glob_pattern (strip q) = Config.is_glob_pattern (strip p) →
    (if Config.is_glob_pattern (strip p) then strip q = strip p
     else Path_resolve (strip q) = Path_resolve (strip p)) →
    (Config.add_patterns [q] (Config.add_patterns [p] fs).1).1
    = (Config.add_patterns [p] fs).1).
  { intros q' Hg He. rewrite (add_patterns_one q'), (add_patterns_one p).
    rewrite save_save.
    destruct (Config.can_write fs) eqn:W; [|by rewrite !(save_refused _ fs W)].
    by rewrite load_saved, add_pattern_again. }
  split_and!.
  - apply Hagain; [done|]. by destruct (Config.is_glob_pattern _).
  - rewrite add_patterns_two. apply Hagain; [done|].
    by destruct (Config.is_glob_pattern _).
  - rewrite add_patterns_one, load_save.
    destruct (Config.can_write fs); [|done].
    rewrite add_pattern_config.
    destruct (Config.is_glob_pattern (strip p)).
    + destruct (decide (strip p ∈ Config.include_patterns (Config.load_config fs)))
        as [Hin|Hin].
      * rewrite (bool_decide_eq_true_2 _ Hin).
        pose proof (occurrences_in _ _ Hin). lia.
      * rewrite (bool_decide_eq_false_2 _ Hin). cbn [Config.include_patterns].
        rewrite occurrences_snoc, (occurrences_not_in _ _ Hin).
        by rewrite bool_decide_eq_true_2.
    + destruct (decide (Path_resolve (strip p)
                        ∈ Config.explicit_files (Config.load_config fs)))
        as [Hin|Hin].
      * rewrite (bool_decide_eq_true_2 _ Hin).
        pose proof (occurrences_in _ _ Hin). lia.
      * rewrite (bool_decide_eq_false_2 _ Hin). cbn [Config.explicit_files].
        rewrite occurrences_snoc, (occurrences_not_in _ _ Hin).
        by rewrite bool_decide_eq_true_2.
  - intros W. rewrite add_patterns_one. by apply save_refused.
  - intros Hp Hq He. apply Hagain; [congruence|]. by rewrite Hp.
Qed.

End StoreFacts.

(* ===================================================================== *)
(** ** UTF-8 forms *)

Section Utf8Forms.
Import Utf8.
Local Open Scope N_scope.

(** What the bytes look like where a character begins. *)
Lemma starts_char_shape b l :
  starts_char (b :: l) →
  b < 128
  ∨ (194 <= b < 224 ∧ ∃ b1 l', l = b1 :: l' ∧ 128 <= b1 < 192)
  ∨ (224 <= b < 240
     ∧ ∃ b1 b2 l', l = b1 :: b2 :: l' ∧ 128 <= b1 < 192 ∧ 128 <= b2 < 192
                   ∧ (b = 224 → 160 <= b1) ∧ (b = 237 → b1 < 160))
  ∨ (240 <= b < 245
     ∧ ∃ b1 b2 b3 l', l = b1 :: b2 :: b3 :: l'
                      ∧ 128 <= b1 < 192 ∧ 128 <= b2 < 192 ∧ 128 <= b3 < 192
                      ∧ (b = 240 → 144 <= b1) ∧ (b = 244 → b1 < 144)).
Proof.
  intros (c & Hc & k & Hk). unfold encode in Hk.
  destruct (c <? 128) eqn:H1; [|destruct (c <? 2048) eqn:H2;
                                 [|destruct (c <? 65536) eqn:H3]];
    cbn [app] in Hk; simplify_eq; to_props.
  - left. lia.
  - right. left. split; [divlia|]. eexists _, _. split; [done|]. divlia.
  - right. right. left. split; [divlia|]. eexists _, _, _. split; [done|].
    divlia.
  - right. right. right. split; [divlia|]. eexists _, _, _, _.
    split; [done|]. divlia.
Qed.

Lemma encode_cp1 b : b < 128 → encode b = [b] ∧ scalar b = true.
Proof. intros. encode_tac. Qed.

Lemma encode_cp2 b0 b1 :
  194 <= b0 < 224 → 128 <= b1 < 192 →
  encode (cp2 b0 b1) = [b0; b1] ∧ scalar (cp2 b0 b1) = true.
Proof. intros. encode_tac. Qed.

Lemma encode_cp3 b0 b1 b2 :
  224 <= b0 < 240 → 128 <= b1 < 192 → 128 <= b2 < 192 →
  (b0 = 224 → 160 <= b1) → (b0 = 237 → b1 < 160) →
  encode (cp3 b0 b1 b2) = [b0; b1; b2] ∧ scalar (cp3 b0 b1 b2) = true.
Proof. intros. encode_tac. Qed.

Lemma encode_cp4 b0 b1 b2 b3 :
  240 <= b0 < 245 → 128 <= b1 < 192 → 128 <= b2 < 192 → 128 <= b3 < 192 →
  (b0 = 240 → 144 <= b1) → (b0 = 244 → b1 < 144) →
  encode (cp4 b0 b1 b2 b3) = [b0; b1; b2; b3]
  ∧ scalar (cp4 b0 b1 b2 b3) = true.
Proof. intros. encode_tac. Qed.

Lemma reads_char_bytes c bytes rest s :
  encode c = bytes ∧ scalar c = true →
  reads_dropping rest s → reads_dropping (bytes ++ rest) (c :: s).
Proof. intros [<- Hc] Hr. by constructor. Qed.

(** The text the decoder returns with ["ignore"] is the bytes read with
    the undecodable ones left out. *)
Lemma decode_ignore_reads n :
  ∀ bs, (length bs <= n)%nat →
  ∃ s, decode Ignore bs = Some s ∧ reads_dropping (Byte.to_N <$> bs) s.
Proof.
  induction n as [|n IH]; intros bs Hlen.
  { destruct bs; [|simpl in Hlen; lia]. exists []. split; [done|constructor]. }
  destruct bs as [|c0 r0]; [exists []; split; [done|constructor]|].
  decode_cases; rewrite ?fmap_cons;
    lazymatch goal with
    | |- ∃ s, Some [] = Some s ∧ _ =>
      exists []; split; [done|];
      repeat (apply reads_drop; [no_char starts_char_shape|]); apply reads_end
    | |- ∃ s, emit ?b (decode Ignore ?r) = Some s ∧ _ =>
      destruct (IH r) as (s' & Hd & Hr); [cbn [length] in *; lia|];
      rewrite Hd; exists (b :: s'); split; [done|];
      first
        [ apply (reads_char_bytes _ [_]); [apply encode_cp1|exact Hr]
        | apply (reads_char_bytes _ [_; _]); [apply encode_cp2|exact Hr]
        | apply (reads_char_bytes _ [_; _; _]); [apply encode_cp3|exact Hr]
        | apply (reads_char_bytes _ [_; _; _; _]); [apply encode_cp4|exact Hr] ];
      to_props; lia
    | |- ∃ s, decode Ignore ?r = Some s ∧ _ =>
      destruct (IH r) as (s' & Hd & Hr); [cbn [length] in *; lia|];
      exists s'; split; [done|];
      rewrite ?fmap_cons in Hr;
      repeat (first [exact Hr|apply reads_drop; [no_char starts_char_shape|]])
    end.
Qed.

(** UTF-8 is prefix free: at most one character begins at a place. *)
Lemma encode_prefix_free c c' r r' :
  encode c ++ r = encode c' ++ r' → c = c' ∧ r = r'.
Proof.
  unfold encode.
  repeat match goal with
         | |- context [(?a <? ?b)%N] =>
           let E := fresh "E" in
           destruct (a <? b)%N eqn:E;
           [apply N.ltb_lt in E|apply N.ltb_ge in E]
         end;
    cbn [app]; intros Heq; simplify_eq; try divlia;
    (split; [divlia|done]).
Qed.

Lemma encode_cons c : ∃ b l, encode c = b :: l.
Proof. unfold encode. repeat case_match; by eexists _, _. Qed.

(** The reading is determined by the bytes. *)
Lemma reads_dropping_unique l s :
  reads_dropping l s → ∀ s', reads_dropping l s' → s' = s.
Proof.
  induction 1 as [|c rest s Hc Hr IH|b rest s Hno Hr IH]; intros s' H'.
  - inversion H' as [|c' rest' t Hc' Hr' Heq|]; [done|].
    destruct (encode_cons c') as (b & l & E). rewrite E in Heq. discriminate.
  - remember (encode c ++ rest) as l eqn:El.
    destruct H' as [|c' rest' t Hc' Hr'|b rest' t Hno Hr'].
    + destruct (encode_cons c) as (b & l & E). rewrite E in El. discriminate.
    + apply encode_prefix_free in El as [-> ->]. f_equal. by apply IH.
    + exfalso. apply Hno. exists c. split; [done|]. rewrite El.
      by apply prefix_app_r.
  - remember (b :: rest) as l eqn:El.
    destruct H' as [|c' rest' t Hc' Hr'|b' rest' t Hno' Hr'].
    + discriminate.
    + exfalso. apply Hno. exists c'. split; [done|]. by apply prefix_app_r.
    + injection El as -> ->. by apply IH.
Qed.

End Utf8Forms.

(* ===================================================================== *)
(** ** Reading with undecodable bytes *)

Section Reading.
Import Utf8.

(** With ["ignore"] the decoder always returns, and what it returns is the
    strict decoding of the input with some bytes left out. *)
Lemma decode_ignore_spec n :
  ∀ bs, (length bs <= n)%nat →
  ∃ s kept, decode Ignore bs = Some s ∧ sublist kept bs
            ∧ decode Strict kept = Some s.
Proof.
  induction n as [|n IH]; intros bs Hlen.
  { destruct bs; [|simpl in Hlen; lia]. by exists [], []. }
  destruct bs as [|c0 r0]; [by exists [], []|].
  decode_cases;
    lazymatch goal with
    | |- ∃ s kept, Some [] = Some s ∧ _ =>
      exists [], []; split_and!; [done|apply sublist_nil_l|done]
    | |- ∃ s kept, emit ?b (decode Ignore ?r) = Some s ∧ _ =>
      destruct (IH r) as (s' & kept' & Hd & Hsub & Hstrict);
        [cbn [length] in *; lia|];
      rewrite Hd;
      first
        [ exists (b :: s'), (c0 :: kept'); split_and!;
          [done|repeat (first [exact Hsub|apply sublist_skip])|use_conditions; done]
        | match goal with
          | |- context [sublist _ (c0 :: ?c1 :: r)] =>
            exists (b :: s'), (c0 :: c1 :: kept'); split_and!;
            [done|repeat (first [exact Hsub|apply sublist_skip])
            |use_conditions; done]
          | |- context [sublist _ (c0 :: ?c1 :: ?c2 :: r)] =>
            exists (b :: s'), (c0 :: c1 :: c2 :: kept'); split_and!;
            [done|repeat (first [exact Hsub|apply sublist_skip])
            |use_conditions; done]
          | |- context [sublist _ (c0 :: ?c1 :: ?c2 :: ?c3 :: r)] =>
            exists (b :: s'), (c0 :: c1 :: c2 :: c3 :: kept'); split_and!;
            [done|repeat (first [exact Hsub|apply sublist_skip])
            |use_conditions; done]
          end ]
    | |- ∃ s kept, decode Ignore ?r = Some s ∧ _ =>
      destruct (IH r) as (s' & kept' & Hd & Hsub & Hstrict);
        [cbn [length] in *; lia|];
      exists s', kept'; split_and!;
        [done|repeat (first [exact Hsub|apply sublist_cons])|done]
    end.
Qed.

(** Where the strict decoder succeeds, ["ignore"] changes nothing. *)
Lemma decode_strict_ignore n :
  ∀ bs, (length bs <= n)%nat →
  ∀ s, decode Strict bs = Some s → decode Ignore bs = Some s.
Proof.
  induction n as [|n IH]; intros bs Hlen s.
  { destruct bs; [done|simpl in Hlen; lia]. }
  destruct bs as [|c0 r0]; [done|].
  decode_cases; intros Hs; try discriminate Hs;
    match goal with
    | Hs : emit _ (decode Strict ?r) = Some _ |- _ =>
      destruct (decode Strict r) as [s'|] eqn:E; [|discriminate Hs];
      rewrite (IH r) with (s := s'); [exact Hs|cbn [length] in *; lia|exact E]
    end.
Qed.

Context `{Platform}.

(** C7 (amended): where a file can be opened, reading it as text never
    fails. The text is the bytes read from left to right with the
    undecodable ones left out: where the UTF-8 form of a scalar value begins
    that character is read, where none begins one byte is dropped and
    nothing is put in its place; the bytes admit no other such reading. So
    the text is the strict decoding of the bytes kept, and of all the bytes
    when they are valid UTF-8. Universal newlines apply. *)
Theorem C7_undecodable_bytes_dropped (file_path : str) (bs : list byte) :
  file_bytes file_path = Some bs →
  ∃ s kept,
    open_read file_path = Some (universal_newlines s)
    ∧ decode Ignore bs = Some s
    ∧ reads_dropping (Byte.to_N <$> bs) s
    ∧ (∀ s', reads_dropping (Byte.to_N <$> bs) s' → s' = s)
    ∧ sublist kept bs
    ∧ decode Strict kept = Some s
    ∧ (∀ s', decode Strict bs = Some s' → s' = s).
Proof.
  intros Hb.
  destruct (decode_ignore_spec (length bs) bs) as (s & kept & Hd & Hsub & Hk);
    [lia|].
  destruct (decode_ignore_reads (length bs) bs) as (s0 & Hd0 & Hr); [lia|].
  assert (s0 = s) as -> by congruence.
  exists s, kept. split_and!; try done.
  - unfold open_read, read_text. rewrite Hb. cbn. by rewrite Hd.
  - by apply reads_dropping_unique.
  - intros s' Hs. apply (decode_strict_ignore (length bs)) in Hs; [|lia].
    congruence.
Qed.

End Reading.

(* ===================================================================== *)
(** ** The claims on concrete runs *)

Section Examples.
Import Example.

(** C1: with [max_files = 1], [a.txt] in the working directory and
    [sub/b.txt] below it, both matching [*.txt], the run adds two files: the
    [break] after the first addition leaves the loop over the files of one
    directory only, and the walk goes on with [sub]. *)
Theorem C1_max_files_exceeded_in_next_directory :
  let r := @collect_file_contents two_dirs tools [lit "*.txt"] []
             (Some 1) None None one_token_per_char in
  let st := @run two_dirs tools [lit "*.txt"] [] (Some 1) None None
              one_token_per_char in
  files_added r.2 = 2
  ∧ labels (history st) = [lit "a.txt"; lit "sub/b.txt"]
  ∧ limits_reached (Some 1) None None
      (@walk_files two_dirs tools [lit "*.txt"] (Some 1) None None
         one_token_per_char (@load_gitignore two_dirs tools) cwd ∅ cwd
         [lit "a.txt"] initial) = true.
Proof. vm_compute. done. Qed.

(** C5, as stated, fails: [secret.env] is met by the walk, matched by the
    ignore rules and in the explicit set, and yet not in the bundle, because
    its block of 23 characters is over [max_chars = 5]; both loops record it
    as skipped. *)
Lemma C5_counterexample_explicit_but_over_budget :
  let explicit_files := [lit "/w/secret.env"] in
  let st := @run ignored_secret tools [] explicit_files None (Some 5) None
              one_token_per_char in
  @os_walk ignored_secret
    (@prune ignored_secret (@load_gitignore ignored_secret tools) cwd) cwd
    (@cwd_tree ignored_secret) = [(cwd, [], [lit "secret.env"])]
  ∧ @walk_label ignored_secret cwd cwd (lit "secret.env") = lit "secret.env"
  ∧ @should_ignore ignored_secret (lit "secret.env")
      (@load_gitignore ignored_secret tools) = true
  ∧ @Path_resolve ignored_secret (@os_path_join ignored_secret cwd (lit "secret.env"))
    ∈ (list_to_set (@Path_resolve ignored_secret <$> explicit_files) : gset str)
  ∧ labels (history st) = []
  ∧ skipped_files st = [lit "secret.env"; lit "secret.env"]
  ∧ ¬ (lit "secret.env" ∈ labels (history st) ↔
       @Path_resolve ignored_secret
         (@os_path_join ignored_secret cwd (lit "secret.env"))
       ∈ (list_to_set (@Path_resolve ignored_secret <$> explicit_files)
          : gset str)).
Proof.
  intros explicit_files st.
  assert (Hin : @Path_resolve ignored_secret
                  (@os_path_join ignored_secret cwd (lit "secret.env"))
                ∈ (list_to_set (@Path_resolve ignored_secret <$> explicit_files)
                   : gset str)).
  { apply (bool_decide_unpack _). by vm_compute. }
  assert (Hl : labels (history st) = []) by (by vm_compute).
  split_and!; try (by vm_compute); try done.
  rewrite Hl. intros [_ Hr]. by apply Hr, elem_of_nil in Hin.
Qed.

(** C5 at a file inside a pruned directory: [build/] is ignored and never
    visited, and [build/out.txt], listed as explicit, is collected by the
    second loop. *)
Lemma C5_witness_explicit_file_in_pruned_directory :
  let st := @run pruned_dir tools [lit "*.txt"] [lit "/w/build/out.txt"]
              None None None one_token_per_char in
  @os_walk pruned_dir
    (@prune pruned_dir (@load_gitignore pruned_dir tools) cwd) cwd
    (@cwd_tree pruned_dir) = [(cwd, [lit "build"], [lit "a.txt"])]
  ∧ labels (history st) = [lit "a.txt"; lit "build/out.txt"]
  ∧ (@explicit_label pruned_dir (@Path_cwd pruned_dir) (lit "/w/build/out.txt")
       ∈ labels (history st)
     ∨ @explicit_label pruned_dir (@Path_cwd pruned_dir) (lit "/w/build/out.txt")
       ∈ skipped
           (@collect_file_contents pruned_dir tools [lit "*.txt"]
              [lit "/w/build/out.txt"] None None None one_token_per_char).2
     ∨ limits_reached None None None st = true).
Proof.
  intros st. split_and!; [by vm_compute..|].
  apply (proj2 (proj2 (@C5_ignored_only_when_explicit pruned_dir tools
           [lit "*.txt"] [lit "/w/build/out.txt"] None None None
           one_token_per_char)) (lit "/w/build/out.txt") (lit "yo")).
  - apply elem_of_cons. by left.
  - by vm_compute.
  - by vm_compute.
  - by vm_compute.
Defined.

(** C8 in a repository where everything matches [*] and both
    [.git/config] and [.gitignore] are listed as explicit: the walk visits
    the working directory and [src], not [.git]. *)
Lemma C8_witness_repository :
  let explicit_files := [lit "/w/.git/config"; lit "/w/.gitignore"] in
  let st := @run with_git tools [lit "*"] explicit_files None None None
              one_token_per_char in
  let walk spec := @os_walk with_git (@prune with_git spec cwd) in
  wf_tree (@cwd_tree with_git)
  ∧ (walk (@load_gitignore with_git tools) cwd (@cwd_tree with_git)).*1.*1
    = [lit "/w"; lit "/w/src"]
  ∧ labels (history st) = [lit "a.txt"; lit "src/m.py"]
  ∧ (∀ spec top dirs files,
       let kept := @prune with_git spec cwd _ fst top dirs in
       walk spec top (Node dirs files)
       = (top, dirs.*1, files)
         :: concat ((fun e => walk spec (@os_path_join with_git top e.1) e.2)
                      <$> kept)
       ∧ sublist kept dirs
       ∧ (NoDup dirs.*1 → Forall (fun e => e.1 ≠ lit ".git") kept))
  ∧ (∀ spec v,
       v ∈ walk spec cwd (@cwd_tree with_git) →
       v.1.1 = cwd
       ∨ ∃ parent dirnames filenames name,
           (parent, dirnames, filenames) ∈ walk spec cwd (@cwd_tree with_git)
           ∧ name ∈ dirnames
           ∧ name ≠ lit ".git"
           ∧ v.1.1 = @os_path_join with_git parent name)
  ∧ Forall (fun rel => rel ≠ lit ".gitignore"
                       ∧ startswith (lit ".git/") rel = false)
      (labels (history st))
  ∧ Forall2 (fun block rel => ∃ content, block = file_block rel content)
      (blocks (history st)) (labels (history st))
  ∧ (@collect_file_contents with_git tools [lit "*"] explicit_files None None
       None one_token_per_char).1
    = code_sample_open ++ concat (blocks (history st)) ++ code_sample_close.
Proof.
  intros explicit_files st walk.
  assert (Hwf : wf_tree (@cwd_tree with_git)).
  { cbn. split_and!; try done; try apply NoDup_nil_2.
    apply (bool_decide_unpack _). by vm_compute. }
  split; [exact Hwf|]. split; [by vm_compute|]. split; [by vm_compute|].
  exact (@C8_git_and_ignore_file_excluded with_git tools [lit "*"]
           explicit_files None None None one_token_per_char Hwf).
Defined.


(** C6 at two spellings of one path: [a.txt], then [./a.txt]. *)
Lemma C6_witness_two_spellings :
  (@Config.add_patterns two_dirs [lit "./a.txt"]
     (@Config.add_patterns two_dirs [lit "a.txt"] no_config).1).1
  = (@Config.add_patterns two_dirs [lit "a.txt"] no_config).1
  ∧ Config.explicit_files
      (Config.load_config
         (@Config.add_patterns two_dirs [lit "a.txt"] no_config).1)
    = [lit "/w/a.txt"].
Proof.
  split; [|by vm_compute].
  apply (proj2 (proj2 (proj2 (proj2 (@C6_add_deduplicates two_dirs no_config
           (lit "a.txt") (lit "./a.txt")))))).
  - by vm_compute.
  - by vm_compute.
  - by vm_compute.
Defined.

(** Where the configuration file cannot be written, [add] reports the
    pattern as added and stores nothing. *)
Example add_to_read_only_config :
  let fs := read_only_config [lit "*.txt"] [] in
  let r := @Config.add_patterns two_dirs [lit "*.md"] fs in
  Config.can_write fs = false
  ∧ Config.save_error fs = true
  ∧ Config.added_globs r.2 = [lit "*.md"]
  ∧ r.1 = fs
  ∧ Config.include_patterns (Config.load_config r.1) = [lit "*.txt"].
Proof. by vm_compute. Qed.

(** C7 at a file whose second byte is not UTF-8: the text is [hi], and
    the only reading of the bytes that drops what is undecodable. *)
Lemma C7_witness_invalid_byte :
  @file_bytes latin1_file (lit "/w/n.txt") = Some not_utf8
  ∧ Byte.to_N <$> not_utf8 = [104; 255; 105]%N
  ∧ Utf8.decode Utf8.Ignore not_utf8 = Some (lit "hi")
  ∧ ∃ s kept,
      @open_read latin1_file (lit "/w/n.txt") = Some (Utf8.universal_newlines s)
      ∧ Utf8.decode Utf8.Ignore not_utf8 = Some s
      ∧ Utf8.reads_dropping (Byte.to_N <$> not_utf8) s
      ∧ (∀ s', Utf8.reads_dropping (Byte.to_N <$> not_utf8) s' → s' = s)
      ∧ sublist kept not_utf8
      ∧ Utf8.decode Utf8.Strict kept = Some s
      ∧ (∀ s', Utf8.decode Utf8.Strict not_utf8 = Some s' → s' = s).
Proof.
  assert (Hb : @file_bytes latin1_file (lit "/w/n.txt") = Some not_utf8)
    by (by vm_compute).
  split; [exact Hb|]. split; [by vm_compute|]. split; [by vm_compute|].
  exact (@C7_undecodable_bytes_dropped latin1_file (lit "/w/n.txt") not_utf8 Hb).
Defined.

(** C7, as stated, fails: the undecodable byte is dropped, not replaced.
    The file reads as [hi], two characters, where a read that replaces
    would give three, U+FFFD in the middle. *)
Lemma C7_counterexample_byte_dropped_not_replaced :
  @open_read latin1_file (lit "/w/n.txt") = Some (lit "hi")
  ∧ Utf8.read_text not_utf8 = Some (lit "hi")
  ∧ Utf8.read_text_replacing not_utf8 = Some [104; 65533; 105]%N
  ∧ Utf8.read_text not_utf8 ≠ Utf8.read_text_replacing not_utf8.
Proof. split_and!; by vm_compute. Qed.

(** A lead byte whose continuation is missing is dropped alone: the
    bytes [68 C3 69 21] read as [hi!]. *)
Example lead_byte_dropped_alone :
  Utf8.read_text [x68; xc3; x69; x21] = Some (lit "hi!")
  ∧ Utf8.read_text_replacing [x68; xc3; x69; x21]
    = Some [104; 65533; 105; 33]%N.
Proof. by vm_compute. Qed.

(** The example of the specification: one fenced block, for [a.txt], is
    copied to the clipboard. *)
Example copy_txt_and_md :
  let fs := project_config [lit "*.txt"] [] in
  let args := {| arg_max_files := Some 50; arg_max_chars := Some 100000;
                 arg_max_tokens := Some 100000;
                 arg_model := lit "gpt-3.5-turbo" |} in
  let r := @collect_file_contents txt_and_md tools [lit "*.txt"] []
             (Some 50) (Some 100000) (Some 100000) one_token_per_char in
  r.1 = code_sample_open ++ file_block (lit "a.txt") (lit "hi")
        ++ code_sample_close
  ∧ files_added r.2 = 1 ∧ files_skipped r.2 = 0
  ∧ @clipboard_written (@perform_copy txt_and_md tools args fs) = true.
Proof. by vm_compute. Qed.

(** With [max_chars] below the length of the first block the file is
    skipped, nothing is added and the clipboard is left alone. *)
Example copy_nothing_fits :
  let fs := project_config [lit "*.txt"] [] in
  let args := {| arg_max_files := Some 50; arg_max_chars := Some 10;
                 arg_max_tokens := Some 100000;
                 arg_model := lit "gpt-3.5-turbo" |} in
  @perform_copy txt_and_md tools args fs
  = [Collecting (InfoCharLimit (lit "a.txt")); ErrNoFiles].
Proof. by vm_compute. Qed.

End Examples.

(* ===================================================================== *)
(** ** Further invariants of the two loops *)

Section Preserved.
Context `{Platform} `{Tools}.
Variable include_patterns : list str.
Variables max_files max_chars max_tokens : option Z.
Variable enc : encoding.
Variable spec : str -> bool.
Variable base_dir : str.
Variable explicit_files_abs : gset str.

(** A property of the local variables that the prints outside the budget
    checks keep and that the budget checks keep, whatever file they are run
    on. *)
Variable P : state -> Prop.
Hypothesis P_print : ∀ m st, outside_budget m → P st → P (print_stderr m st).
Hypothesis P_step :
  ∀ p r c st, P st → P (add_or_skip max_files max_chars max_tokens enc p r c st).1.

Lemma preserved_read p r st :
  P st → P (read_then_add max_files max_chars max_tokens enc p r st).1.
Proof using P_print P_step.
  intros HP. unfold read_then_add. destruct (open_read p); cbn [fst]; auto.
  by apply P_print.
Qed.

Lemma preserved_file_step dirpath filename st :
  P st →
  P (walk_file include_patterns max_files max_chars max_tokens enc spec
       base_dir explicit_files_abs dirpath filename st).1.
Proof using P_print P_step.
  intros HP. unfold walk_file.
  repeat (match goal with |- context [if ?b then _ else _] => destruct b end);
    cbn [fst]; auto using preserved_read.
  by apply P_print.
Qed.

Lemma preserved_files_loop dirpath filenames st :
  P st →
  P (walk_files include_patterns max_files max_chars max_tokens enc spec
       base_dir explicit_files_abs dirpath filenames st).
Proof using P_print P_step.
  revert st. induction filenames as [|f fs IH]; intros st HP; simpl; [done|].
  pose proof (preserved_file_step dirpath f st HP) as Hf.
  destruct (walk_file _ _ _ _ _ _ _ _ dirpath f st) as [st' []]; cbn [fst] in Hf;
    auto.
Qed.

Lemma preserved_prints {B} (g : B → message) (l : list B) st :
  (∀ x, outside_budget (g x)) →
  P st → P (foldl (fun st x => print_stderr (g x) st) st l).
Proof using P_print.
  intros Hg. revert st. induction l as [|x l IH]; intros st HP; simpl; auto.
Qed.

Lemma preserved_walk st :
  P st →
  P (walk include_patterns max_files max_chars max_tokens enc spec base_dir
       explicit_files_abs st).
Proof using P_print P_step.
  unfold walk. generalize (os_walk (prune spec base_dir) base_dir cwd_tree).
  intros vs. revert st. induction vs as [|v vs IH]; intros st HP; simpl; [done|].
  apply IH. destruct v as [[dirpath dirnames] filenames]. unfold walk_dir.
  apply preserved_files_loop.
  by apply (preserved_prints (fun d => InfoSkipDir (rel_dir_path_of _ d))).
Qed.

Lemma preserved_explicit_loop fs st :
  P st → P (explicit_pass max_files max_chars max_tokens enc base_dir fs st).
Proof using P_print P_step.
  revert st. induction fs as [|f fs IH]; intros st HP; simpl; [done|].
  assert (Hf : P (explicit_file max_files max_chars max_tokens enc base_dir
                    f st).1).
  { unfold explicit_file.
    repeat (match goal with |- context [if ?b then _ else _] => destruct b end);
      cbn [fst]; auto using preserved_read.
    by apply P_print. }
  destruct (explicit_file _ _ _ _ _ f st) as [st' []]; cbn [fst] in Hf; auto.
Qed.

Lemma preserved_collected explicit_files :
  P initial →
  P (collected include_patterns explicit_files max_files max_chars max_tokens
       enc spec base_dir explicit_files_abs).
Proof using P_print P_step.
  intros HP. unfold collected. by apply preserved_explicit_loop, preserved_walk.
Qed.

End Preserved.

(* ===================================================================== *)
(** ** Budgets, accounting and notices *)

Lemma exceeds_false limit v :
  exceeds limit v = false → match limit with Some m => v <= m | None => True end.
Proof.
  destruct limit as [m|]; simpl; [|done].
  intros ?%bool_decide_eq_false. lia.
Qed.

Lemma sum_snoc {A} (g : A → Z) (l : list A) (x : A) :
  foldr (fun a n => g a + n) 0 (l ++ [x]) = foldr (fun a n => g a + n) 0 l + g x.
Proof. induction l as [|a l IH]; simpl; [lia|]. rewrite IH. lia. Qed.

Lemma lines_appended_snoc h o :
  lines_appended (h ++ [o])
  = lines_appended h + match o with
                       | Appended _ _ c => line_count c
                       | _ => 0
                       end.
Proof.
  unfold lines_appended. rewrite appended_snoc.
  destruct o; rewrite ?app_nil_r; [|lia..].
  by rewrite (sum_snoc (fun a => line_count a.2)).
Qed.

Lemma lines_turned_away_snoc h o :
  lines_turned_away (h ++ [o])
  = lines_turned_away h + match o with
                          | Appended _ _ _ => 0
                          | OverChars _ _ c _ | OverTokens _ _ c _ => line_count c
                          end.
Proof.
  unfold lines_turned_away. induction h as [|o' h IH]; simpl.
  - destruct o; lia.
  - rewrite IH. destruct o'; lia.
Qed.

Lemma budget_notices_snoc log m :
  budget_notices (log ++ [m])
  = budget_notices log ++ match m with
                          | InfoCharLimit r | InfoTokenLimit r => [r]
                          | _ => []
                          end.
Proof. unfold budget_notices. rewrite omap_app. by destruct m. Qed.

Section Totals.
Context `{Platform} `{Tools}.
Variables include_patterns explicit_files : list str.
Variables max_files max_chars max_tokens : option Z.
Variable enc : encoding.

Local Abbreviation final :=
  (run include_patterns explicit_files max_files max_chars max_tokens enc).
Local Abbreviation result :=
  (collect_file_contents include_patterns explicit_files max_files max_chars
     max_tokens enc).

Lemma run_within :
  within max_chars (total_chars_copied final) (total_files_added final)
  ∧ within max_tokens (total_tokens_copied final) (total_files_added final).
Proof.
  unfold run.
  apply (preserved_collected _ _ _ _ _ _ _ _
           (fun st => within max_chars (total_chars_copied st) (total_files_added st)
                      ∧ within max_tokens (total_tokens_copied st)
                          (total_files_added st))).
  - by intros m st _.
  - intros p r c st [Hc Ht]. unfold add_or_skip.
    destruct (exceeds max_chars _) eqn:Ec; [done|].
    destruct (exceeds max_tokens _) eqn:Et; [done|].
    apply exceeds_false in Ec, Et. fields. unfold within.
    split; [destruct max_chars|destruct max_tokens]; auto.
  - unfold within. split; [destruct max_chars|destruct max_tokens]; auto.
Qed.

Lemma run_lines_and_notices :
  total_lines_added final = lines_appended (history final)
  ∧ total_lines_skipped final = lines_turned_away (history final)
  ∧ budget_notices (stderr final) = skipped_files final.
Proof.
  unfold run.
  apply (preserved_collected _ _ _ _ _ _ _ _
           (fun st => total_lines_added st = lines_appended (history st)
                      ∧ total_lines_skipped st = lines_turned_away (history st)
                      ∧ budget_notices (stderr st) = skipped_files st)).
  - intros m st Hm (Ha & Hs & Hn). fields. split_and!; try done.
    rewrite budget_notices_snoc, Hn. destruct m; by rewrite ?app_nil_r.
  - intros p r c st (Ha & Hs & Hn). unfold add_or_skip.
    destruct (exceeds max_chars _); [|destruct (exceeds max_tokens _)]; fields;
      rewrite ?lines_appended_snoc, ?lines_turned_away_snoc,
        ?budget_notices_snoc, ?Ha, ?Hs, ?Hn;
      split_and!; unfold line_count; (done || lia).
  - done.
Qed.


(** X2: every file recorded as skipped was announced on [stderr] by one
    "would exceed ... limit" notice, and no other file was: the notices
    name the entries of [skipped_files], in order. *)
Theorem one_notice_per_skipped_file :
  budget_notices (stderr final) = skipped result.2.
Proof. by destruct run_lines_and_notices as (_ & _ & Hn). Qed.

(** X3: every fenced block of the bundle holds the text read from its file,
    and that file matches an include pattern or is, by resolved absolute
    path, in the explicit set: nothing else gets in. *)
Theorem only_selected_files_in_bundle :
  Forall (fun a =>
            open_read a.1.1 = Some a.2
            ∧ (matches_include_patterns a.1.2 include_patterns = true
               ∨ Path_resolve a.1.1
                 ∈ (list_to_set (Path_resolve <$> explicit_files) : gset str)))
    (appended (history final)).
Proof.
  destruct (run_invariant include_patterns explicit_files max_files max_chars
              max_tokens enc) as [_ _ _ _ _ _ _ _ Hj _].
  apply Forall_forall. intros [[p r] c] Ha.
  rewrite Forall_forall in Hj.
  unfold appended in Ha. apply list_elem_of_omap in Ha as (o & Ho & Heq).
  destruct o; simplify_eq.
  by destruct (Hj _ Ho) as (_ & ? & ? & _).
Qed.

(** X4: what [print_summary] shows of a run agrees with the run: it says that
    no files were skipped exactly when none was, and otherwise lists
    exactly the skipped files under the warnings. *)
Theorem summary_shows_the_skipped_files :
  let shown := print_summary result.2 max_files max_chars max_tokens in
  (NoFilesSkipped ∈ shown ↔ skipped result.2 = [])
  ∧ (Warnings ∈ shown ↔ skipped result.2 ≠ [])
  ∧ (∀ file, SkippedFile file ∈ shown ↔ file ∈ skipped result.2)
  ∧ (∀ n, FilesSkipped n ∈ shown → n = Z.of_nat (length (skipped result.2))).
Proof.
  intros shown. subst shown.
  destruct (run_invariant include_patterns explicit_files max_files max_chars
              max_tokens enc) as [_ _ _ _ _ _ _ Hn _ _].
  unfold collect_file_contents, print_summary.
  cbn [snd summary_of files_added chars_copied tokens_copied lines_added
       files_skipped lines_skipped skipped].
  rewrite Hn. clear Hn.
  generalize (skipped_files final) (total_lines_skipped final)
    (total_files_added final) (total_chars_copied final)
    (total_tokens_copied final) (total_lines_added final).
  clear. intros l n1 n2 n3 n4 n5.
  assert (Hin : ∀ file, SkippedFile file ∈ SkippedFile <$> l ↔ file ∈ l).
  { intros file. rewrite list_elem_of_fmap. split.
    - by intros (f & [= ->] & Hf).
    - intros Hf. by exists file. }
  assert (Hno : ∀ x : summary_line,
            (∀ file, x ≠ SkippedFile file) → x ∉ SkippedFile <$> l).
  { intros x Hx (f & -> & _)%list_elem_of_fmap. by apply (Hx f). }
  destruct l as [|f l].
  - rewrite bool_decide_eq_false_2 by (simpl; lia).
    split_and!.
    + split; [done|]. intros _. rewrite !elem_of_app, !elem_of_cons. tauto.
    + split; [|done]. rewrite !elem_of_app, !elem_of_cons, !elem_of_nil.
      intros H; decompose [or] H; (discriminate || contradiction).
    + intros file. split; [|by intros ?%elem_of_nil].
      rewrite !elem_of_app, !elem_of_cons, !elem_of_nil.
      intros H; decompose [or] H; (discriminate || contradiction).
    + intros n. rewrite !elem_of_app, !elem_of_cons, !elem_of_nil.
      intros H; decompose [or] H; (discriminate || contradiction).
  - rewrite bool_decide_eq_true_2 by (cbn [length]; lia).
    split_and!.
    + split; [|done]. rewrite !elem_of_app, !elem_of_cons, !elem_of_nil.
      intros H; decompose [or] H; try (discriminate || contradiction).
      exfalso; eapply Hno; [|eassumption]; done.
    + split; [done|]. intros _. rewrite !elem_of_app, !elem_of_cons. tauto.
    + intros file. rewrite <- Hin.
      rewrite !elem_of_app, !elem_of_cons, !elem_of_nil.
      split; [|tauto]. intros H; decompose [or] H; try (discriminate || contradiction); done.
    + intros n. rewrite !elem_of_app, !elem_of_cons, !elem_of_nil.
      intros H; decompose [or] H; try (discriminate || contradiction).
      * congruence.
      * exfalso; eapply Hno; [|eassumption]; done.
Qed.

End Totals.

(** X5: the character and the token budget are never exceeded: with a limit
    set, the total copied stays within it as soon as a file is added (while
    the file count can pass [max_files]). *)
Theorem character_and_token_budgets_kept `{Platform} `{Tools}
    (include_patterns explicit_files : list str)
    (max_files max_chars max_tokens : option Z) (enc : encoding) (m : Z) :
  (let s := (collect_file_contents include_patterns explicit_files max_files
               (Some m) max_tokens enc).2 in
   chars_copied s <= m ∨ files_added s = 0)
  ∧ (let s := (collect_file_contents include_patterns explicit_files max_files
                 max_chars (Some m) enc).2 in
     tokens_copied s <= m ∨ files_added s = 0).
Proof.
  split.
  - by destruct (run_within include_patterns explicit_files max_files (Some m)
                   max_tokens enc) as [Hc _].
  - by destruct (run_within include_patterns explicit_files max_files max_chars
                   (Some m) enc) as [_ Ht].
Qed.

(* ===================================================================== *)
(** ** Runs without limits, and how far the file count can go *)

Section Completeness.
Context `{Platform} `{Tools}.
Variables include_patterns explicit_files : list str.
Variable enc : encoding.

Local Abbreviation unlimited :=
  (run include_patterns explicit_files None None None enc).
Local Abbreviation abs_set :=
  (list_to_set (Path_resolve <$> explicit_files) : gset str).

Lemma unlimited_nothing_skipped : skipped_files unlimited = [].
Proof.
  destruct (run_invariant include_patterns explicit_files None None None enc)
    as [_ _ _ _ _ _ Hs _ Hj _].
  rewrite Hs. clear Hs.
  induction Hj as [|o h Ho _ IH]; [done|].
  destruct o as [p r c|p r c b|p r c b]; simpl in *; [done| |].
  - by destruct Ho as (_ & m & Hm & _).
  - by destruct Ho as (_ & m & Hm & _).
Qed.

Lemma unlimited_settled rel :
  settled None None None rel unlimited → rel ∈ labels (history unlimited).
Proof.
  destruct (run_invariant include_patterns explicit_files None None None enc)
    as [_ _ _ _ Hi _ _ _ _ _].
  intros [Hin|[Hsk|Hr]].
  - by apply Hi.
  - rewrite unlimited_nothing_skipped in Hsk. by apply elem_of_nil in Hsk.
  - discriminate Hr.
Qed.

(** X6: with no limit set, every file the walk meets that is readable, matches
    an include pattern or is explicit, is not one of the excluded names and
    is not ignored (unless explicit) has its block in the bundle. *)
Theorem unlimited_run_collects_every_selected_file
    dirpath dirnames filenames filename content :
  (dirpath, dirnames, filenames)
    ∈ os_walk (prune load_gitignore Path_cwd) Path_cwd cwd_tree →
  filename ∈ filenames →
  eligible include_patterns load_gitignore abs_set
    (os_path_join dirpath filename) (walk_label Path_cwd dirpath filename)
    content →
  walk_label Path_cwd dirpath filename ∈ labels (history unlimited).
Proof.
  intros Hv Hf He. apply unlimited_settled. unfold run, collected.
  eapply settled_mono; [apply grows_explicit_loop|].
  unfold walk. by eapply dirs_settled.
Qed.

(** X7: with no limit set, every entry of the explicit list that is an
    existing, readable file and not one of the excluded names has its block
    in the bundle, wherever it lies. *)
Theorem unlimited_run_collects_every_explicit_file file_path content :
  file_path ∈ explicit_files →
  excluded_name (explicit_label Path_cwd file_path) = false →
  Path_is_file file_path = true →
  open_read file_path = Some content →
  explicit_label Path_cwd file_path ∈ labels (history unlimited).
Proof.
  intros Hin Hx Hf Hc. apply unlimited_settled. unfold run, collected.
  by eapply explicit_loop_settled.
Qed.

End Completeness.

Section FileCount.
Context `{Platform} `{Tools}.
Variable include_patterns : list str.
Variable m : Z.
Variables max_chars max_tokens : option Z.
Variable enc : encoding.
Variable spec : str -> bool.
Variable base_dir : str.
Variable explicit_files_abs : gset str.

(** One pass of a loop body adds at most one file and, when the loop goes
    on after an addition, the count is still below [max_files]. *)
Local Abbreviation counted st r :=
  (total_files_added st <= total_files_added r.1 <= total_files_added st + 1
   ∧ (r.2 = false →
      total_files_added r.1 = total_files_added st
      ∨ total_files_added r.1 < m)).

Lemma step_counted p r c st :
  counted st (add_or_skip (Some m) max_chars max_tokens enc p r c st).
Proof.
  unfold add_or_skip.
  destruct (exceeds max_chars _); [|destruct (exceeds max_tokens _)]; fields;
    [split; [lia|auto]..|].
  split; [lia|]. unfold limits_reached. fields. cbn [reaches].
  case_bool_decide; [done|]. intros _. right. lia.
Qed.

Lemma read_counted p r st :
  counted st (read_then_add (Some m) max_chars max_tokens enc p r st).
Proof.
  unfold read_then_add. destruct (open_read p); [apply step_counted|].
  fields. split; [lia|auto].
Qed.

Lemma file_step_counted dirpath filename st :
  counted st (walk_file include_patterns (Some m) max_chars max_tokens enc
                spec base_dir explicit_files_abs dirpath filename st).
Proof.
  unfold walk_file.
  repeat (match goal with |- context [if ?b then _ else _] => destruct b end);
    try apply read_counted; fields; (split; [lia|auto]).
Qed.

Lemma explicit_step_counted p st :
  counted st (explicit_file (Some m) max_chars max_tokens enc base_dir p st).
Proof.
  unfold explicit_file.
  repeat (match goal with |- context [if ?b then _ else _] => destruct b end);
    try apply read_counted; fields; (split; [lia|auto]).
Qed.

Lemma files_loop_count dirpath filenames st :
  total_files_added
    (walk_files include_patterns (Some m) max_chars max_tokens enc spec
       base_dir explicit_files_abs dirpath filenames st)
  <= Z.max (total_files_added st + 1) (Z.max m 1).
Proof.
  revert st. induction filenames as [|f fs IH]; intros st; simpl; [lia|].
  pose proof (file_step_counted dirpath f st) as [Hb Hgo].
  destruct (walk_file _ _ _ _ _ _ _ _ dirpath f st) as [st' stop];
    cbn [fst snd] in *.
  destruct stop; [lia|]. specialize (IH st').
  destruct (Hgo eq_refl); lia.
Qed.

Lemma explicit_loop_count fs st :
  total_files_added
    (explicit_pass (Some m) max_chars max_tokens enc base_dir fs st)
  <= match fs with
     | [] => total_files_added st
     | _ :: _ => Z.max (total_files_added st + 1) (Z.max m 1)
     end.
Proof.
  assert (Hgen : ∀ fs st,
    total_files_added
      (explicit_pass (Some m) max_chars max_tokens enc base_dir fs st)
    <= Z.max (total_files_added st + 1) (Z.max m 1)).
  { clear fs st. intros fs. induction fs as [|f fs IH]; intros st; simpl; [lia|].
    pose proof (explicit_step_counted f st) as [Hb Hgo].
    destruct (explicit_file _ _ _ _ _ f st) as [st' stop]; cbn [fst snd] in *.
    destruct stop; [lia|]. specialize (IH st').
    destruct (Hgo eq_refl); lia. }
  destruct fs; [simpl; lia|apply Hgen].
Qed.

Lemma prints_count {B} (g : B → message) (l : list B) st :
  total_files_added (foldl (fun st x => print_stderr (g x) st) st l)
  = total_files_added st.
Proof. revert st. induction l as [|x l IH]; intros st; simpl; [done|]. by rewrite IH. Qed.

Lemma dirs_count (vs : list visit) st :
  total_files_added
    (foldl (fun st v =>
              walk_dir include_patterns (Some m) max_chars max_tokens enc spec
                base_dir explicit_files_abs v st) st vs)
  <= Z.max (total_files_added st) (Z.max m 1 - 1) + Z.of_nat (length vs).
Proof.
  revert st. induction vs as [|v vs IH]; intros st; simpl foldl; [simpl; lia|].
  specialize (IH (walk_dir include_patterns (Some m) max_chars max_tokens enc
                    spec base_dir explicit_files_abs v st)).
  assert (Hv : total_files_added
                 (walk_dir include_patterns (Some m) max_chars max_tokens enc
                    spec base_dir explicit_files_abs v st)
               <= Z.max (total_files_added st + 1) (Z.max m 1)).
  { destruct v as [[dirpath dirnames] filenames]. unfold walk_dir.
    etrans; [apply files_loop_count|].
    by rewrite (prints_count (fun d => InfoSkipDir (rel_dir_path_of _ d))). }
  cbn [length]. lia.
Qed.

End FileCount.

(** X8: how far the file count can pass [max_files]: each directory visited
    after the limit is reached, and the loop over the explicit files, add at
    most one file more. The count is at most [max(max_files, 1)], plus the
    number of directories visited beyond the first, plus one if there are
    explicit files. *)
Theorem files_added_bound `{Platform} `{Tools}
    (include_patterns explicit_files : list str) (m : Z)
    (max_chars max_tokens : option Z) (enc : encoding) :
  files_added (collect_file_contents include_patterns explicit_files (Some m)
                 max_chars max_tokens enc).2
  <= Z.max m 1
     + (Z.of_nat (length (os_walk (prune load_gitignore Path_cwd) Path_cwd
                            cwd_tree)) - 1)
     + match explicit_files with [] => 0 | _ :: _ => 1 end.
Proof.
  unfold collect_file_contents, run, collected, walk.
  cbn [snd summary_of files_added].
  set (vs := os_walk _ _ _).
  assert (Hk : (1 <= length vs)%nat).
  { subst vs. destruct cwd_tree. cbn [os_walk length]. lia. }
  pose proof (dirs_count include_patterns m max_chars max_tokens enc
                load_gitignore Path_cwd
                (list_to_set (Path_resolve <$> explicit_files)) vs initial) as Hw.
  pose proof (explicit_loop_count m max_chars max_tokens enc Path_cwd
                explicit_files
                (foldl (fun st v =>
                          walk_dir include_patterns (Some m) max_chars max_tokens
                            enc load_gitignore Path_cwd
                            (list_to_set (Path_resolve <$> explicit_files)) v st)
                   initial vs)) as He.
  change (total_files_added initial) with 0 in Hw.
  destruct explicit_files; lia.
Qed.

(* ===================================================================== *)
(** ** Ignored directories *)


(* ===================================================================== *)
(** ** The remaining-token estimate *)

Lemma in_token_note max_tokens s remaining :
  PrintTokensRemaining remaining ∈ token_note max_tokens s →
  0 < remaining
  ∧ 0 < tokens_copied s
  ∧ max_tokens = Some (tokens_copied s + remaining).
Proof.
  unfold token_note. destruct max_tokens as [m|]; [|by intros ?%elem_of_nil].
  destruct (bool_decide (tokens_copied s >= m)) eqn:Hge.
  { intros [?|?%elem_of_nil]%elem_of_cons; done. }
  destruct (bool_decide (tokens_copied s > 0)) eqn:Hpos.
  2:{ by intros ?%elem_of_nil. }
  apply bool_decide_eq_false in Hge. apply bool_decide_eq_true in Hpos.
  intros [Heq|?%elem_of_nil]%elem_of_cons; [|done].
  injection Heq as ->. split_and!; [lia|lia|f_equal; lia].
Qed.

(** X10: when [perform_copy] prints an estimate of the tokens remaining, a
    token limit is set, the estimate is that limit less the tokens copied,
    and it is positive. *)
Theorem remaining_tokens_estimate_positive `{Platform} `{Tools}
    (a : args) (fs : Config.files) (remaining : Z) :
  PrintTokensRemaining remaining ∈ perform_copy a fs →
  let config := Config.load_config fs in
  let enc := default cl100k_base (encoding_for_model (arg_model a)) in
  let s := (collect_file_contents (Config.include_patterns config)
              (Config.explicit_files config) (arg_max_files a)
              (arg_max_chars a) (arg_max_tokens a) enc).2 in
  0 < remaining
  ∧ 0 < tokens_copied s
  ∧ arg_max_tokens a = Some (tokens_copied s + remaining).
Proof.
  intros Hin config enc s. subst s enc config. apply in_token_note.
  revert Hin. unfold perform_copy.
  destruct (bool_decide _ && bool_decide _).
  { intros [?|?%elem_of_nil]%elem_of_cons; done. }
  assert (Hlog : ∀ ms : list message,
            PrintTokensRemaining remaining ∉ Collecting <$> ms).
  { intros ms (m & ? & _)%list_elem_of_fmap. discriminate. }
  assert (Htail : ∀ text s mf mc mt,
    PrintTokensRemaining remaining
      ∈ [ClipboardCopy text; PrintCopied; PrintSummary s mf mc mt]
        ++ token_note mt s ++ [PrintRule] →
    PrintTokensRemaining remaining ∈ token_note mt s).
  { intros text s mf mc mt [Hh|[Hn|Hr]%elem_of_app]%elem_of_app; [|done|].
    - repeat (apply elem_of_cons in Hh as [Hh|Hh]; [discriminate Hh|]).
      by apply elem_of_nil in Hh.
    - apply list_elem_of_singleton in Hr. discriminate Hr. }
  destruct (encoding_for_model (arg_model a)) as [e|]; cbn [default];
    unfold collect_file_contents; cbn [fst snd].
  - intros [Hw|[Hl|Hrest]%elem_of_app]%elem_of_app.
    + by apply elem_of_nil in Hw.
    + by apply Hlog in Hl.
    + destruct (bool_decide (files_added _ = 0)).
      * apply list_elem_of_singleton in Hrest. discriminate Hrest.
      * by apply Htail in Hrest.
  - intros [Hw|[Hl|Hrest]%elem_of_app]%elem_of_app.
    + apply list_elem_of_singleton in Hw. discriminate Hw.
    + by apply Hlog in Hl.
    + destruct (bool_decide (files_added _ = 0)).
      * apply list_elem_of_singleton in Hrest. discriminate Hrest.
      * by apply Htail in Hrest.
Qed.

(* ===================================================================== *)
(** ** The pattern store: adding in batches, removing, clearing *)

Lemma list_remove_fresh (e : str) (l : list str) :
  e ∉ l → list_remove id e (l ++ [e]) = l.
Proof.
  induction l as [|x l IH]; simpl.
  - intros _. destruct (decide (e = e)) as [|Hn]; [done|by destruct Hn].
  - intros [Hne Hl]%not_elem_of_cons.
    destruct (decide (x = e)) as [Heq|_]; [by destruct Hne|by rewrite IH].
Qed.

Lemma list_remove_absent (e : str) (l : list str) :
  e ∉ l → list_remove id e l = l.
Proof.
  induction l as [|x l IH]; simpl; [done|].
  intros [Hne Hl]%not_elem_of_cons.
  destruct (decide (x = e)) as [Heq|_]; [by destruct Hne|by rewrite IH].
Qed.

Lemma occurrences_list_remove (x e : str) (l : list str) :
  occurrences x (list_remove id e l)
  = (occurrences x l
     - if bool_decide (x = e) && bool_decide (e ∈ l) then 1 else 0)%nat.
Proof.
  unfold occurrences. induction l as [|y l IH]; simpl.
  { by rewrite andb_false_r. }
  destruct (decide (y = e)) as [->|Hne].
  - rewrite (bool_decide_eq_true_2 (e ∈ e :: l)) by (apply elem_of_cons; by left).
    rewrite andb_true_r. rewrite (bool_decide_ext (e = x) (x = e)) by done.
    destruct (bool_decide (x = e)); simpl; lia.
  - rewrite (bool_decide_ext (e ∈ y :: l) (e ∈ l)).
    2:{ rewrite elem_of_cons. split; [intros [?|?]; [done|done]|by right]. }
    simpl. destruct (bool_decide (y = x)) eqn:Hy; simpl; rewrite IH; [|done].
    apply bool_decide_eq_true in Hy. subst y.
    rewrite (bool_decide_eq_false_2 (x = e)) by done. simpl. lia.
Qed.

Section Batches.
Context `{Platform}.

Local Abbreviation nothing_added :=
  {| Config.added_globs := []; Config.added_files := [] |}.
Local Abbreviation nothing_removed :=
  {| Config.removed_globs := []; Config.removed_files := [];
     Config.not_in_list := [] |}.

(** The entry [add_patterns] and [remove_patterns] work on for a pattern:
    the pattern stripped, resolved if it holds no wildcard. *)
Local Abbreviation entry p :=
  (if Config.is_glob_pattern (strip p) then strip p else Path_resolve (strip p)).

(** What a batch of additions leaves, and what it reports. *)
Lemma add_batch patterns cfg rep :
  let r := foldl (fun acc pattern => Config.add_pattern pattern acc)
             (cfg, rep) patterns in
  ∃ globs files,
    Config.include_patterns r.1 = Config.include_patterns cfg ++ globs
    ∧ Config.added_globs r.2 = Config.added_globs rep ++ globs
    ∧ Config.explicit_files r.1 = Config.explicit_files cfg ++ files
    ∧ Config.added_files r.2 = Config.added_files rep ++ files
    ∧ Forall (fun g => Config.is_glob_pattern g = true
                       ∧ ∃ p, p ∈ patterns ∧ g = strip p) globs
    ∧ Forall (fun f => ∃ p, p ∈ patterns
                            ∧ Config.is_glob_pattern (strip p) = false
                            ∧ f = Path_resolve (strip p)) files
    ∧ (NoDup (Config.include_patterns cfg) →
       NoDup (Config.include_patterns r.1))
    ∧ (NoDup (Config.explicit_files cfg) → NoDup (Config.explicit_files r.1))
    ∧ (∀ p, p ∈ patterns →
       if Config.is_glob_pattern (strip p)
       then strip p ∈ Config.include_patterns r.1
       else Path_resolve (strip p) ∈ Config.explicit_files r.1).
Proof.
  revert cfg rep. induction patterns as [|p ps IH]; intros cfg rep r.
  { exists [], []. subst r. cbn. rewrite !app_nil_r.
    split_and!; try done. by intros p ?%elem_of_nil. }
  subst r. cbn [foldl].
  destruct (Config.add_pattern p (cfg, rep)) as [c1 r1] eqn:E.
  destruct (IH c1 r1) as (globs & files & Hg & Hrg & Hf & Hrf & Fg & Ff & Ng & Nf & Hin).
  set (r := foldl _ (c1, r1) ps) in *.
  assert (Hweak_g : Forall (fun g => Config.is_glob_pattern g = true
                       ∧ ∃ q, q ∈ p :: ps ∧ g = strip q) globs).
  { eapply Forall_impl; [exact Fg|]. intros g (? & q & ? & ?).
    split; [done|]. exists q. split; [by apply elem_of_cons; right|done]. }
  assert (Hweak_f : Forall (fun f => ∃ q, q ∈ p :: ps
                            ∧ Config.is_glob_pattern (strip q) = false
                            ∧ f = Path_resolve (strip q)) files).
  { eapply Forall_impl; [exact Ff|]. intros f (q & ? & ? & ?).
    exists q. split; [by apply elem_of_cons; right|done]. }
  unfold Config.add_pattern in E.
  destruct (Config.is_glob_pattern (strip p)) eqn:Hglob.
  - destruct (bool_decide (strip p ∉ Config.include_patterns cfg)) eqn:Hnew;
      injection E as <- <-; cbn [Config.include_patterns Config.explicit_files
        Config.added_globs Config.added_files] in *.
    + apply bool_decide_eq_true in Hnew.
      exists (strip p :: globs), files. split_and!.
      * by rewrite Hg, <- app_assoc.
      * by rewrite Hrg, <- app_assoc.
      * done.
      * done.
      * constructor; [|done]. split; [done|]. exists p.
        split; [by apply elem_of_cons; left|done].
      * done.
      * intros Hnd. apply Ng. apply NoDup_app. split_and!; [done| |].
        -- intros x Hx ->%list_elem_of_singleton. done.
        -- apply NoDup_singleton.
      * done.
      * intros q [->|Hq]%elem_of_cons; [|by apply Hin].
        rewrite Hglob, Hg. apply elem_of_app. left.
        apply elem_of_app. right. by apply list_elem_of_singleton.
    + apply bool_decide_eq_false in Hnew. apply dec_stable in Hnew.
      exists globs, files. split_and!; try done.
      intros q [->|Hq]%elem_of_cons; [|by apply Hin].
      rewrite Hglob, Hg. apply elem_of_app. by left.
  - destruct (bool_decide (Path_resolve (strip p) ∉ Config.explicit_files cfg))
      eqn:Hnew;
      injection E as <- <-; cbn [Config.include_patterns Config.explicit_files
        Config.added_globs Config.added_files] in *.
    + apply bool_decide_eq_true in Hnew.
      exists globs, (Path_resolve (strip p) :: files). split_and!.
      * done.
      * done.
      * by rewrite Hf, <- app_assoc.
      * by rewrite Hrf, <- app_assoc.
      * done.
      * constructor; [|done]. exists p.
        split; [by apply elem_of_cons; left|done].
      * done.
      * intros Hnd. apply Nf. apply NoDup_app. split_and!; [done| |].
        -- intros x Hx ->%list_elem_of_singleton. done.
        -- apply NoDup_singleton.
      * intros q [->|Hq]%elem_of_cons; [|by apply Hin].
        rewrite Hglob, Hf. apply elem_of_app. left.
        apply elem_of_app. right. by apply list_elem_of_singleton.
    + apply bool_decide_eq_false in Hnew. apply dec_stable in Hnew.
      exists globs, files. split_and!; try done.
      intros q [->|Hq]%elem_of_cons; [|by apply Hin].
      rewrite Hglob, Hf. apply elem_of_app. by left.
Qed.

(** X11: [add_patterns] only appends, in the order of the batch, and
    reports exactly what it appended: where the configuration file can be
    written, both stored lists are the old lists followed by the reported
    entries; where it cannot, the configuration files are as they were. A
    reported glob holds a wildcard and is a pattern of the batch, stripped; a
    reported file is the resolved path of a pattern of the batch that holds
    none. *)
Theorem add_patterns_appends_what_it_reports (patterns : list str)
    (fs : Config.files) :
  let r := Config.add_patterns patterns fs in
  (if Config.can_write fs
   then Config.include_patterns (Config.load_config r.1)
        = Config.include_patterns (Config.load_config fs)
          ++ Config.added_globs r.2
        ∧ Config.explicit_files (Config.load_config r.1)
          = Config.explicit_files (Config.load_config fs)
            ++ Config.added_files r.2
   else r.1 = fs)
  ∧ Forall (fun g => Config.is_glob_pattern g = true
                     ∧ ∃ p, p ∈ patterns ∧ g = strip p)
      (Config.added_globs r.2)
  ∧ Forall (fun f => ∃ p, p ∈ patterns
                          ∧ Config.is_glob_pattern (strip p) = false
                          ∧ f = Path_resolve (strip p))
      (Config.added_files r.2).
Proof.
  intros r. subst r. unfold Config.add_patterns.
  destruct (add_batch patterns (Config.load_config fs) nothing_added)
    as (globs & files & Hg & Hrg & Hf & Hrf & Fg & Ff & _).
  destruct (foldl _ _ patterns) as [c rep]. cbn [fst snd] in *.
  cbn in Hrg, Hrf. rewrite Hrg, Hrf. split_and!; [|done..].
  destruct (Config.can_write fs) eqn:W.
  - by rewrite load_saved.
  - by apply save_refused.
Qed.

(** X12: where the configuration file can be written, after [add_patterns]
    every pattern of the batch is stored: stripped in [include_patterns] if
    it holds a wildcard, resolved in [explicit_files] otherwise. *)
Theorem add_patterns_stores_every_pattern (patterns : list str)
    (fs : Config.files) (p : str) :
  Config.can_write fs = true →
  p ∈ patterns →
  let cfg := Config.load_config (Config.add_patterns patterns fs).1 in
  if Config.is_glob_pattern (strip p)
  then strip p ∈ Config.include_patterns cfg
  else Path_resolve (strip p) ∈ Config.explicit_files cfg.
Proof.
  intros W Hp cfg. subst cfg. unfold Config.add_patterns.
  destruct (add_batch patterns (Config.load_config fs) nothing_added)
    as (_ & _ & _ & _ & _ & _ & _ & _ & _ & _ & Hin).
  destruct (foldl _ _ patterns) as [c rep]. cbn [fst snd] in *.
  rewrite load_saved by done. by apply Hin.
Qed.

(** X13: [add_patterns] keeps the stored lists free of duplicates. *)
Theorem add_patterns_keeps_lists_duplicate_free (patterns : list str)
    (fs : Config.files) :
  NoDup (Config.include_patterns (Config.load_config fs)) →
  NoDup (Config.explicit_files (Config.load_config fs)) →
  let cfg := Config.load_config (Config.add_patterns patterns fs).1 in
  NoDup (Config.include_patterns cfg) ∧ NoDup (Config.explicit_files cfg).
Proof.
  intros Hi He cfg. subst cfg. unfold Config.add_patterns.
  destruct (add_batch patterns (Config.load_config fs) nothing_added)
    as (_ & _ & _ & _ & _ & _ & _ & _ & Ng & Nf & _).
  destruct (foldl _ _ patterns) as [c rep]. cbn [fst snd] in *.
  rewrite load_save. destruct (Config.can_write fs); auto.
Qed.

Lemma remove_patterns_one p fs :
  Config.remove_patterns [p] fs
  = let r := Config.remove_pattern p (Config.load_config fs, nothing_removed) in
    (Config.save_config r.1 fs, r.2).
Proof.
  unfold Config.remove_patterns. cbn [foldl].
  by destruct (Config.remove_pattern p _).
Qed.

(** X14: [remove_patterns] takes away one occurrence of the entry, the
    first, and nothing else: in the list the entry belongs to, the count of
    the entry goes down by one if it was there and the configuration file can
    be written, and every other count stays; the other list is not
    touched. *)
Theorem remove_patterns_removes_one_occurrence (p x : str) (fs : Config.files) :
  let before := Config.load_config fs in
  let after := Config.load_config (Config.remove_patterns [p] fs).1 in
  if Config.is_glob_pattern (strip p) then
    occurrences x (Config.include_patterns after)
    = (occurrences x (Config.include_patterns before)
       - if bool_decide (x = strip p)
            && bool_decide (strip p ∈ Config.include_patterns before)
            && Config.can_write fs
         then 1 else 0)%nat
    ∧ Config.explicit_files after = Config.explicit_files before
  else
    occurrences x (Config.explicit_files after)
    = (occurrences x (Config.explicit_files before)
       - if bool_decide (x = Path_resolve (strip p))
            && bool_decide (Path_resolve (strip p)
                            ∈ Config.explicit_files before)
            && Config.can_write fs
         then 1 else 0)%nat
    ∧ Config.include_patterns after = Config.include_patterns before.
Proof.
  intros before after. subst before after.
  rewrite remove_patterns_one. cbn [fst]. rewrite load_save.
  destruct (Config.can_write fs).
  2:{ rewrite !andb_false_r. destruct (Config.is_glob_pattern _);
        (split; [lia|done]). }
  rewrite !andb_true_r. unfold Config.remove_pattern.
  destruct (Config.is_glob_pattern (strip p)).
  - destruct (bool_decide (strip p ∈ _)) eqn:Hin; cbn [fst
      Config.include_patterns Config.explicit_files].
    + by rewrite occurrences_list_remove, Hin.
    + rewrite andb_false_r. split; [lia|done].
  - destruct (bool_decide (Path_resolve (strip p) ∈ _)) eqn:Hin; cbn [fst
      Config.include_patterns Config.explicit_files].
    + by rewrite occurrences_list_remove, Hin.
    + rewrite andb_false_r. split; [lia|done].
Qed.

(** X15: removing an entry that is not stored changes nothing of the
    configuration, and the only thing reported is that the entry is not in
    the list. *)
Theorem remove_patterns_of_absent_entry (p : str) (fs : Config.files) :
  entry p ∉ (if Config.is_glob_pattern (strip p)
             then Config.include_patterns (Config.load_config fs)
             else Config.explicit_files (Config.load_config fs)) →
  Config.load_config (Config.remove_patterns [p] fs).1 = Config.load_config fs
  ∧ (Config.remove_patterns [p] fs).2
    = {| Config.removed_globs := []; Config.removed_files := [];
         Config.not_in_list := [entry p] |}.
Proof.
  intros Hout. rewrite remove_patterns_one. cbn [fst snd]. rewrite load_save.
  unfold Config.remove_pattern.
  destruct (Config.is_glob_pattern (strip p));
    rewrite (bool_decide_eq_false_2 _ Hout); cbn [fst snd];
    by destruct (Config.can_write fs).
Qed.

(** X16: adding an entry that was not stored and removing it again gives the
    configuration back as it was. *)
Theorem add_then_remove_restores (p : str) (fs : Config.files) :
  entry p ∉ (if Config.is_glob_pattern (strip p)
             then Config.include_patterns (Config.load_config fs)
             else Config.explicit_files (Config.load_config fs)) →
  Config.load_config
    (Config.remove_patterns [p] (Config.add_patterns [p] fs).1).1
  = Config.load_config fs.
Proof.
  intros Hout. rewrite remove_patterns_one, add_patterns_one. cbn [fst].
  rewrite !load_save, can_write_save.
  destruct (Config.can_write fs); [|done].
  rewrite add_pattern_config.
  unfold Config.remove_pattern.
  destruct (Config.load_config fs) as [globs files].
  cbn [Config.include_patterns Config.explicit_files] in *.
  destruct (Config.is_glob_pattern (strip p)).
  - rewrite (bool_decide_eq_false_2 _ Hout).
    cbn [Config.include_patterns Config.explicit_files].
    rewrite bool_decide_eq_true_2.
    2:{ apply elem_of_app. right. by apply list_elem_of_singleton. }
    cbn [fst]. by rewrite list_remove_fresh.
  - rewrite (bool_decide_eq_false_2 _ Hout).
    cbn [Config.include_patterns Config.explicit_files].
    rewrite bool_decide_eq_true_2.
    2:{ apply elem_of_app. right. by apply list_elem_of_singleton. }
    cbn [fst]. by rewrite list_remove_fresh.
Qed.

End Batches.

Lemma list_patterns_nothing (fs : Config.files) :
  Config.list_patterns fs = [Config.NothingFound]
  ↔ Config.include_patterns (Config.load_config fs) = []
    ∧ Config.explicit_files (Config.load_config fs) = [].
Proof.
  unfold Config.list_patterns.
  destruct (Config.include_patterns _) as [|g gs],
    (Config.explicit_files _) as [|f ffs]; cbn; split; try done;
    intros [? ?]; done.
Qed.

Lemma perform_copy_no_patterns `{Platform} `{Tools} (a : args)
    (fs : Config.files) :
  perform_copy a fs = [ErrNoPatterns]
  ↔ Config.include_patterns (Config.load_config fs) = []
    ∧ Config.explicit_files (Config.load_config fs) = [].
Proof.
  split.
  - intros Hp.
    destruct (perform_copy_unfold a fs)
      as [(_ & Hi & He)|(pre & _ & _ & [[Hq _]|[(post & Hq & _) _]])];
      [done| |]; rewrite Hp in Hq.
    + destruct pre as [|? [|? ?]]; discriminate Hq.
    + destruct pre as [|? [|? ?]]; discriminate Hq.
  - intros [Hi He]. unfold perform_copy. by rewrite Hi, He.
Qed.

(** X17: [list] and [copy] agree on what an empty configuration is: [list]
    prints its empty-state notice exactly when [copy] refuses to run for
    want of patterns. *)
Theorem list_reports_empty_iff_copy_refuses `{Platform} `{Tools} (a : args)
    (fs : Config.files) :
  Config.list_patterns fs = [Config.NothingFound]
  ↔ perform_copy a fs = [ErrNoPatterns].
Proof. by rewrite list_patterns_nothing, perform_copy_no_patterns. Qed.


(* ===================================================================== *)
(** ** White space around a pattern *)

Lemma lstrip_idem (s : str) : lstrip (lstrip s) = lstrip s.
Proof.
  induction s as [|c s IH]; [done|]. cbn [lstrip].
  destruct (isspace c) eqn:E; [done|]. cbn [lstrip]. by rewrite E.
Qed.

Lemma lstrip_length (s : str) : (length (lstrip s) <= length s)%nat.
Proof.
  induction s as [|c s IH]; [done|]. cbn [lstrip].
  destruct (isspace c); cbn [length]; lia.
Qed.

Lemma lstrip_fixed (s : str) :
  lstrip s = s → s = [] ∨ ∃ c s', s = c :: s' ∧ isspace c = false.
Proof.
  destruct s as [|c s]; [by left|]. intros Hfix. right. exists c, s.
  split; [done|]. cbn [lstrip] in Hfix.
  destruct (isspace c) eqn:E; [|done].
  pose proof (lstrip_length s) as Hlen. rewrite Hfix in Hlen.
  cbn [length] in Hlen. lia.
Qed.

Lemma lstrip_keeps_last (l : str) (c : N) :
  isspace c = false → ∃ z, lstrip (l ++ [c]) = z ++ [c].
Proof.
  intros Hc. induction l as [|d l IH].
  - exists []. cbn [app lstrip]. by rewrite Hc.
  - cbn [app lstrip]. destruct (isspace d); [exact IH|]. by exists (d :: l).
Qed.

Lemma strip_idem (s : str) : strip (strip s) = strip s.
Proof.
  unfold strip.
  assert (Hhead : lstrip (rev (lstrip (rev (lstrip s))))
                  = rev (lstrip (rev (lstrip s)))).
  { destruct (lstrip_fixed (lstrip s) (lstrip_idem s))
      as [->|(c & s' & -> & Hc)]; [done|].
    cbn [rev]. destruct (lstrip_keeps_last (rev s') c Hc) as [z ->].
    rewrite rev_app_distr. cbn [rev app lstrip]. by rewrite Hc. }
  by rewrite Hhead, rev_involutive, lstrip_idem.
Qed.

Section WhiteSpace.
Context `{Platform}.

Lemma add_pattern_strip p acc :
  Config.add_pattern (strip p) acc = Config.add_pattern p acc.
Proof. unfold Config.add_pattern. by rewrite strip_idem. Qed.

Lemma remove_pattern_strip p acc :
  Config.remove_pattern (strip p) acc = Config.remove_pattern p acc.
Proof. unfold Config.remove_pattern. by rewrite strip_idem. Qed.

Lemma foldl_strip {A} (f : str → A → A)
    (Hf : ∀ p acc, f (strip p) acc = f p acc) (patterns : list str) :
  ∀ acc, foldl (fun acc p => f p acc) acc (strip <$> patterns)
         = foldl (fun acc p => f p acc) acc patterns.
Proof.
  induction patterns as [|p ps IH]; intros acc; [done|].
  rewrite fmap_cons. cbn [foldl]. by rewrite Hf, IH.
Qed.

(** X19: white space around a pattern given on the command line makes no
    difference: adding or removing the patterns as typed, or with the
    white space already taken off, leaves the same configuration files and
    gives the same report. *)
Theorem surrounding_white_space_is_irrelevant (patterns : list str)
    (fs : Config.files) :
  Config.add_patterns (strip <$> patterns) fs = Config.add_patterns patterns fs
  ∧ Config.remove_patterns (strip <$> patterns) fs
    = Config.remove_patterns patterns fs.
Proof.
  unfold Config.add_patterns, Config.remove_patterns.
  by rewrite (foldl_strip Config.add_pattern add_pattern_strip),
    (foldl_strip Config.remove_pattern remove_pattern_strip).
Qed.

End WhiteSpace.

(* ===================================================================== *)
(** ** The token-limit warning *)

Lemma in_token_note_limit max_tokens s :
  PrintTokenLimitReached ∈ token_note max_tokens s →
  ∃ m, max_tokens = Some m ∧ m <= tokens_copied s.
Proof.
  unfold token_note. destruct max_tokens as [m|]; [|by intros ?%elem_of_nil].
  destruct (bool_decide (tokens_copied s >= m)) eqn:Hge.
  { apply bool_decide_eq_true in Hge. intros _. exists m. split; [done|lia]. }
  destruct (bool_decide (tokens_copied s > 0)).
  - intros [?|?%elem_of_nil]%elem_of_cons; done.
  - by intros ?%elem_of_nil.
Qed.

Lemma limit_note_in_copy `{Platform} `{Tools} (a : args) (fs : Config.files) :
  PrintTokenLimitReached ∈ perform_copy a fs →
  let config := Config.load_config fs in
  let enc := default cl100k_base (encoding_for_model (arg_model a)) in
  let s := (collect_file_contents (Config.include_patterns config)
              (Config.explicit_files config) (arg_max_files a)
              (arg_max_chars a) (arg_max_tokens a) enc).2 in
  PrintTokenLimitReached ∈ token_note (arg_max_tokens a) s
  ∧ files_added s ≠ 0.
Proof.
  intros Hin config enc s. subst s enc config.
  revert Hin. unfold perform_copy.
  destruct (bool_decide _ && bool_decide _).
  { intros [?|?%elem_of_nil]%elem_of_cons; done. }
  assert (Hlog : ∀ ms : list message,
            PrintTokenLimitReached ∉ Collecting <$> ms).
  { intros ms (m & ? & _)%list_elem_of_fmap. discriminate. }
  assert (Htail : ∀ text s mf mc mt,
    PrintTokenLimitReached
      ∈ [ClipboardCopy text; PrintCopied; PrintSummary s mf mc mt]
        ++ token_note mt s ++ [PrintRule] →
    PrintTokenLimitReached ∈ token_note mt s).
  { intros text s mf mc mt [Hh|[Hn|Hr]%elem_of_app]%elem_of_app; [|done|].
    - repeat (apply elem_of_cons in Hh as [Hh|Hh]; [discriminate Hh|]).
      by apply elem_of_nil in Hh.
    - apply list_elem_of_singleton in Hr. discriminate Hr. }
  destruct (encoding_for_model (arg_model a)) as [e|]; cbn [default];
    unfold collect_file_contents; cbn [fst snd].
  - intros [Hw|[Hl|Hrest]%elem_of_app]%elem_of_app.
    + by apply elem_of_nil in Hw.
    + by apply Hlog in Hl.
    + destruct (bool_decide (files_added _ = 0)) eqn:Hz.
      * apply list_elem_of_singleton in Hrest. discriminate Hrest.
      * apply bool_decide_eq_false in Hz. split; [by apply Htail in Hrest|done].
  - intros [Hw|[Hl|Hrest]%elem_of_app]%elem_of_app.
    + apply list_elem_of_singleton in Hw. discriminate Hw.
    + by apply Hlog in Hl.
    + destruct (bool_decide (files_added _ = 0)) eqn:Hz.
      * apply list_elem_of_singleton in Hrest. discriminate Hrest.
      * apply bool_decide_eq_false in Hz. split; [by apply Htail in Hrest|done].
Qed.

(** X20: the warning "Maximum token limit reached" is printed only when the
    tokens copied are exactly [max_tokens]: the budget check keeps the total
    from passing the limit, so the test [tokens_copied >= max_tokens] can
    only hold with equality. Whether a file was skipped plays no part. *)
Theorem token_limit_warning_means_exact_fit `{Platform} `{Tools}
    (a : args) (fs : Config.files) :
  PrintTokenLimitReached ∈ perform_copy a fs →
  let config := Config.load_config fs in
  let enc := default cl100k_base (encoding_for_model (arg_model a)) in
  let s := (collect_file_contents (Config.include_patterns config)
              (Config.explicit_files config) (arg_max_files a)
              (arg_max_chars a) (arg_max_tokens a) enc).2 in
  arg_max_tokens a = Some (tokens_copied s) ∧ 0 < files_added s.
Proof.
  intros Hin config enc s.
  destruct (limit_note_in_copy a fs Hin) as [Hnote Hadded].
  fold config enc s in Hnote, Hadded.
  apply in_token_note_limit in Hnote as (m & Hm & Hle).
  pose proof (run_within (Config.include_patterns config)
                (Config.explicit_files config) (arg_max_files a)
                (arg_max_chars a) (arg_max_tokens a) enc) as [_ Ht].
  pose proof (files_added_count (Config.include_patterns config)
                (Config.explicit_files config) (arg_max_files a)
                (arg_max_chars a) (arg_max_tokens a) enc) as Hcount.
  subst s. unfold collect_file_contents in *.
  cbn [snd summary_of files_added tokens_copied] in *.
  set (final := run _ _ _ _ _ _) in *.
  unfold within in Ht. rewrite Hm in Ht.
  rewrite Hm. split; [f_equal|]; lia.
Qed.

(* ===================================================================== *)
(** ** Which configuration file is used *)


(* ===================================================================== *)
(** ** The further properties at concrete inputs *)

Section FurtherExamples.
Import Example.

(** Without limits, [sub/b.txt], met by the walk in the second directory
    and matching [*.txt], is in the bundle. *)
Lemma unlimited_selected_file_witness :
  (lit "/w/sub", [], [lit "b.txt"])
    ∈ @os_walk two_dirs
        (@prune two_dirs (@load_gitignore two_dirs tools) cwd) cwd
        (@cwd_tree two_dirs)
  ∧ @walk_label two_dirs cwd (lit "/w/sub") (lit "b.txt") = lit "sub/b.txt"
  ∧ lit "sub/b.txt"
    ∈ labels (history (@run two_dirs tools [lit "*.txt"] [] None None None
                         one_token_per_char)).
Proof.
  assert (Hv : (lit "/w/sub", [], [lit "b.txt"])
               ∈ @os_walk two_dirs
                   (@prune two_dirs (@load_gitignore two_dirs tools) cwd) cwd
                   (@cwd_tree two_dirs)).
  { apply (bool_decide_unpack _). by vm_compute. }
  split; [exact Hv|]. split; [by vm_compute|].
  apply (@unlimited_run_collects_every_selected_file two_dirs tools
           [lit "*.txt"] [] one_token_per_char (lit "/w/sub") []
           [lit "b.txt"] (lit "b.txt") (lit "yo") Hv).
  - apply elem_of_cons. by left.
  - unfold eligible. split_and!.
    + by vm_compute.
    + by vm_compute.
    + left. by vm_compute.
    + intros Hign. by vm_compute in Hign.
Defined.

(** Without limits, [build/out.txt], in a directory the walk never enters
    and listed as explicit, is in the bundle. *)
Lemma unlimited_explicit_file_witness :
  @explicit_label pruned_dir cwd (lit "/w/build/out.txt") = lit "build/out.txt"
  ∧ lit "build/out.txt"
    ∈ labels (history (@run pruned_dir tools [] [lit "/w/build/out.txt"]
                         None None None one_token_per_char)).
Proof.
  split; [by vm_compute|].
  apply (@unlimited_run_collects_every_explicit_file pruned_dir tools []
           [lit "/w/build/out.txt"] one_token_per_char
           (lit "/w/build/out.txt") (lit "yo")).
  - apply elem_of_cons. by left.
  - by vm_compute.
  - by vm_compute.
  - by vm_compute.
Defined.


(** The example of the specification with the default limits: 17 tokens
    are copied and 127983 remain of 128000. *)
Lemma remaining_tokens_witness :
  let fs := project_config [lit "*.txt"] [] in
  let s := (@collect_file_contents txt_and_md tools [lit "*.txt"] []
              (Some 50) (Some 1000000) (Some 128000) one_token_per_char).2 in
  PrintTokensRemaining 127983 ∈ @perform_copy txt_and_md tools default_args fs
  ∧ 0 < 127983
  ∧ 0 < tokens_copied s
  ∧ Some 128000 = Some (tokens_copied s + 127983).
Proof.
  intros fs s.
  assert (Hin : PrintTokensRemaining 127983
                ∈ @perform_copy txt_and_md tools default_args fs).
  { assert (Hrun : @perform_copy txt_and_md tools default_args fs
                   = [ClipboardCopy
                        (@collect_file_contents txt_and_md tools [lit "*.txt"]
                           [] (Some 50) (Some 1000000) (Some 128000)
                           one_token_per_char).1;
                      PrintCopied;
                      PrintSummary s (Some 50) (Some 1000000) (Some 128000);
                      PrintTokensRemaining 127983; PrintRule])
      by (by vm_compute).
    rewrite Hrun. do 3 (apply elem_of_cons; right). apply elem_of_cons. by left. }
  split; [exact Hin|].
  exact (@remaining_tokens_estimate_positive txt_and_md tools default_args fs
           127983 Hin).
Defined.

(** With [max_tokens] at the 17 tokens of the only block, the warning is
    printed although no file was skipped. *)
Lemma token_limit_warning_witness :
  let fs := project_config [lit "*.txt"] [] in
  let a := {| arg_max_files := None; arg_max_chars := None;
              arg_max_tokens := Some 17; arg_model := lit "gpt-4" |} in
  let s := (@collect_file_contents txt_and_md tools [lit "*.txt"] []
              None None (Some 17) one_token_per_char).2 in
  PrintTokenLimitReached ∈ @perform_copy txt_and_md tools a fs
  ∧ skipped s = []
  ∧ Some 17 = Some (tokens_copied s)
  ∧ 0 < files_added s.
Proof.
  intros fs a s.
  assert (Hin : PrintTokenLimitReached ∈ @perform_copy txt_and_md tools a fs).
  { assert (Hrun : @perform_copy txt_and_md tools a fs
                   = [ClipboardCopy
                        (@collect_file_contents txt_and_md tools [lit "*.txt"]
                           [] None None (Some 17) one_token_per_char).1;
                      PrintCopied;
                      PrintSummary s None None (Some 17);
                      PrintTokenLimitReached; PrintRule])
      by (by vm_compute).
    rewrite Hrun. do 3 (apply elem_of_cons; right). apply elem_of_cons. by left. }
  split; [exact Hin|]. split; [by vm_compute|].
  exact (@token_limit_warning_means_exact_fit txt_and_md tools a fs Hin).
Defined.

(** A batch of a glob with white space around it and a file: both are
    stored. *)
Lemma add_patterns_stores_witness :
  let patterns := [lit "  *.py "; lit "a.txt"] in
  let cfg := Config.load_config
               (@Config.add_patterns two_dirs patterns no_config).1 in
  Config.can_write no_config = true
  ∧ lit "a.txt" ∈ patterns
  ∧ Config.is_glob_pattern (strip (lit "a.txt")) = false
  ∧ Config.explicit_files cfg = [lit "/w/a.txt"]
  ∧ Config.include_patterns cfg = [lit "*.py"]
  ∧ @Path_resolve two_dirs (strip (lit "a.txt")) ∈ Config.explicit_files cfg.
Proof.
  intros patterns cfg.
  assert (Hin : lit "a.txt" ∈ patterns).
  { apply elem_of_cons. right. apply elem_of_cons. by left. }
  split; [done|]. split; [exact Hin|]. split; [by vm_compute|].
  split; [by vm_compute|]. split; [by vm_compute|].
  pose proof (@add_patterns_stores_every_pattern two_dirs patterns no_config
                (lit "a.txt") eq_refl Hin) as Hstored.
  exact Hstored.
Defined.

(** Adding to a configuration that holds [*.txt] and [/w/a.txt] once
    each. *)
Lemma add_patterns_duplicate_free_witness :
  let fs := project_config [lit "*.txt"] [lit "/w/a.txt"] in
  let patterns := [lit "*.txt"; lit "*.md"; lit "a.txt"; lit "*.md"] in
  let cfg := Config.load_config (@Config.add_patterns two_dirs patterns fs).1 in
  NoDup (Config.include_patterns (Config.load_config fs))
  ∧ NoDup (Config.explicit_files (Config.load_config fs))
  ∧ Config.include_patterns cfg = [lit "*.txt"; lit "*.md"]
  ∧ NoDup (Config.include_patterns cfg)
  ∧ NoDup (Config.explicit_files cfg).
Proof.
  intros fs patterns cfg.
  assert (Hg : NoDup (Config.include_patterns (Config.load_config fs))).
  { apply (bool_decide_unpack _). by vm_compute. }
  assert (Hf : NoDup (Config.explicit_files (Config.load_config fs))).
  { apply (bool_decide_unpack _). by vm_compute. }
  split; [exact Hg|]. split; [exact Hf|]. split; [by vm_compute|].
  exact (@add_patterns_keeps_lists_duplicate_free two_dirs patterns fs Hg Hf).
Defined.

(** Removing [*.md] from a configuration that holds only [*.txt]. *)
Lemma remove_absent_witness :
  let fs := project_config [lit "*.txt"] [] in
  (lit "*.md" ∉ Config.include_patterns (Config.load_config fs))
  ∧ Config.load_config (@Config.remove_patterns two_dirs [lit "*.md"] fs).1
    = Config.load_config fs
  ∧ (@Config.remove_patterns two_dirs [lit "*.md"] fs).2
    = {| Config.removed_globs := []; Config.removed_files := [];
         Config.not_in_list := [lit "*.md"] |}.
Proof.
  intros fs.
  assert (Hout : lit "*.md" ∉ Config.include_patterns (Config.load_config fs)).
  { apply (bool_decide_unpack _). by vm_compute. }
  split; [exact Hout|].
  exact (@remove_patterns_of_absent_entry two_dirs (lit "*.md") fs Hout).
Defined.

(** Adding [b.md] to a configuration that holds [/w/a.txt] and removing it
    again. *)
Lemma add_then_remove_witness :
  let fs := project_config [lit "*.txt"] [lit "/w/a.txt"] in
  (lit "/w/b.md" ∉ Config.explicit_files (Config.load_config fs))
  ∧ Config.explicit_files
      (Config.load_config (@Config.add_patterns txt_and_md [lit "b.md"] fs).1)
    = [lit "/w/a.txt"; lit "/w/b.md"]
  ∧ Config.load_config
      (@Config.remove_patterns txt_and_md [lit "b.md"]
         (@Config.add_patterns txt_and_md [lit "b.md"] fs).1).1
    = Config.load_config fs.
Proof.
  intros fs.
  assert (Hout : lit "/w/b.md" ∉ Config.explicit_files (Config.load_config fs)).
  { apply (bool_decide_unpack _). by vm_compute. }
  split; [exact Hout|]. split; [by vm_compute|].
  exact (@add_then_remove_restores txt_and_md (lit "b.md") fs Hout).
Defined.


End FurtherExamples.
